(** * AllPerks: the perks browser page (client/src/pages/AllPerks.jsx)

    A shallow embedding of the React component [AllPerks] and of the part of
    its environment the component talks to: the [useState] cells, the two
    [useEffect] hooks, the browser's timer table ([setTimeout] /
    [clearTimeout]) and the pending [api.get] promises.

    JavaScript strings are sequences of UTF-16 code units; every function
    declared in the component body closes over the state values of the
    render that created it, so a timer callback or a suspended [async]
    function carries the render it was created in.

    Outside the embedding: [console.error], [e.preventDefault()], the CSS
    classes and icons of the markup, responses whose body is not
    [{ perks: [...] }], and discounts that are not integers. State updates
    of one handler or continuation are committed together; the page is
    mounted once and not unmounted. *)

From Stdlib Require Import List NArith ZArith String Ascii Bool Lia DecimalString.
Import ListNotations.

Local Open Scope N_scope.

(* ================================================================= *)
(** ** JavaScript values used by the page *)

Module Js.

(** A string is its list of UTF-16 code units. *)
Definition str := list N.

(** Literals of the source are ASCII. *)
Definition lit (s : string) : str := map N_of_ascii (list_ascii_of_string s).

Definition eqb (a b : str) : bool :=
  if list_eq_dec N.eq_dec a b then true else false.

(** WhiteSpace and LineTerminator code points of ECMAScript, the ones
    [String.prototype.trim] strips. All of them are single code units. *)
Definition is_space (c : N) : bool :=
  (c =? 9) || (c =? 10) || (c =? 11) || (c =? 12) || (c =? 13) || (c =? 32)
  || (c =? 160) || (c =? 5760)
  || ((8192 <=? c) && (c <=? 8202))
  || (c =? 8232) || (c =? 8233) || (c =? 8239) || (c =? 8287)
  || (c =? 12288) || (c =? 65279).

Fixpoint trimStart (s : str) : str :=
  match s with
  | [] => []
  | c :: s' => if is_space c then trimStart s' else s
  end.

Definition trimEnd (s : str) : str := rev (trimStart (rev s)).

Definition trim (s : str) : str := trimEnd (trimStart s).

(** ToBoolean on a string: only the empty string is falsy. *)
Definition truthy (s : str) : bool :=
  match s with [] => false | _ :: _ => true end.

(** [s || undefined]: [None] stands for [undefined]. *)
Definition or_undefined (s : str) : option str :=
  if truthy s then Some s else None.

(** [s || d] for a possibly undefined [s]. *)
Definition or_default (s : option str) (d : str) : str :=
  match s with
  | Some m => if truthy m then m else d
  | None => d
  end.

Definition mem (x : str) (l : list str) : bool := existsb (eqb x) l.

(** [new Set(l)] followed by spreading: the values in insertion order,
    a value already present is not added again. *)
Definition set_add (acc : list str) (x : str) : list str :=
  if mem x acc then acc else acc ++ [x].

Definition set_of (l : list str) : list str := fold_left set_add l [].

(** Number::toString for array lengths and other naturals. *)
Definition of_N (n : N) : str := lit (NilEmpty.string_of_uint (N.to_uint n)).

(** Number::toString for an integral number. *)
Definition of_Z (z : Z) : str :=
  match z with
  | Zneg p => lit "-" ++ of_N (Npos p)
  | _ => of_N (Z.to_N z)
  end.

End Js.

(* ================================================================= *)
(** ** Data model *)

(** A perk as the backend returns it. [merchant] may be missing;
    [discountPercent] is taken integral. *)
Record Perk := mkPerk {
  _id : Js.str;
  title : Js.str;
  merchant : option Js.str;
  discountPercent : Z
}.

(** The seven [useState] cells of the component, as one render sees them. *)
Record State := mkState {
  perks : list Perk;
  allMerchants : list Js.str;
  uniqueMerchants : list Js.str;
  searchQuery : Js.str;
  merchantFilter : Js.str;
  loading : bool;
  error : Js.str
}.

Definition setPerks (v : list Perk) (s : State) : State :=
  mkState v (allMerchants s) (uniqueMerchants s) (searchQuery s)
          (merchantFilter s) (loading s) (error s).
Definition setAllMerchants (v : list Js.str) (s : State) : State :=
  mkState (perks s) v (uniqueMerchants s) (searchQuery s)
          (merchantFilter s) (loading s) (error s).
Definition setUniqueMerchants (v : list Js.str) (s : State) : State :=
  mkState (perks s) (allMerchants s) v (searchQuery s)
          (merchantFilter s) (loading s) (error s).
Definition setSearchQuery (v : Js.str) (s : State) : State :=
  mkState (perks s) (allMerchants s) (uniqueMerchants s) v
          (merchantFilter s) (loading s) (error s).
Definition setMerchantFilter (v : Js.str) (s : State) : State :=
  mkState (perks s) (allMerchants s) (uniqueMerchants s) (searchQuery s)
          v (loading s) (error s).
Definition setLoading (v : bool) (s : State) : State :=
  mkState (perks s) (allMerchants s) (uniqueMerchants s) (searchQuery s)
          (merchantFilter s) v (error s).
Definition setError (v : Js.str) (s : State) : State :=
  mkState (perks s) (allMerchants s) (uniqueMerchants s) (searchQuery s)
          (merchantFilter s) (loading s) v.

(** The initial values passed to [useState]. *)
Definition initial_state : State :=
  mkState [] [] [] [] [] true [].

(* ================================================================= *)
(** ** The HTTP collaborator *)

(** The [params] object handed to [api.get]; [None] is [undefined]. *)
Record Params := mkParams {
  search : option Js.str;
  merchant_param : option Js.str
}.

(** One call of [api.get]. [config = None] is the call with a URL only. *)
Record Request := mkRequest {
  url : Js.str;
  config : option Params
}.

(** The query the HTTP client puts on the wire: a parameter whose value is
    [undefined] is left out. *)
Definition query_of_params (p : Params) : list (Js.str * Js.str) :=
  (match search p with Some v => [(Js.lit "search", v)] | None => [] end)
  ++ (match merchant_param p with Some v => [(Js.lit "merchant", v)] | None => [] end).

Definition query (r : Request) : list (Js.str * Js.str) :=
  match config r with
  | Some p => query_of_params p
  | None => []
  end.

(** How a request can fail: no response at all, or a response with a
    status outside 2xx whose body may carry a [message]. *)
Inductive Failure :=
| NetworkError
| BadStatus (status : N) (message : option Js.str).

(** [err?.response?.data?.message] *)
Definition failure_message (f : Failure) : option Js.str :=
  match f with
  | NetworkError => None
  | BadStatus _ m => m
  end.

Inductive Response :=
| Resolved (data_perks : list Perk)
| Rejected (err : Failure).

(* ================================================================= *)
(** ** The component's environment *)

(** Where a suspended [async] function resumes once its [await] settles.
    [loadAllPerks] belongs to one render and resumes with that render's
    bindings. *)
Inductive Continuation :=
| InitialLoad
| LoadAllPerks (closure : State).

(** An entry of the browser's timer table. The callback of the only
    [setTimeout] of the page calls the [loadAllPerks] of the render that
    ran the effect. *)
Record Timer := mkTimer {
  timer_id : N;
  timer_due : N;
  timer_closure : State
}.

Record World := mkWorld {
  view : State;                         (* the committed render *)
  clock : N;                            (* milliseconds since mount *)
  timers : list Timer;                  (* pending timeouts, oldest first *)
  next_timer : N;
  cleanup : option N;                   (* cleanup of the debounce effect *)
  calls : list Request;                 (* every api.get so far, in order *)
  inflight : list (N * Continuation);   (* promises not settled yet *)
  next_call : N
}.

Definition set_view (v : State) (w : World) : World :=
  mkWorld v (clock w) (timers w) (next_timer w) (cleanup w)
          (calls w) (inflight w) (next_call w).
Definition set_clock (v : N) (w : World) : World :=
  mkWorld (view w) v (timers w) (next_timer w) (cleanup w)
          (calls w) (inflight w) (next_call w).
Definition set_timers (v : list Timer) (w : World) : World :=
  mkWorld (view w) (clock w) v (next_timer w) (cleanup w)
          (calls w) (inflight w) (next_call w).
Definition set_inflight (v : list (N * Continuation)) (w : World) : World :=
  mkWorld (view w) (clock w) (timers w) (next_timer w) (cleanup w)
          (calls w) v (next_call w).

(** A state setter called from a handler or a continuation. *)
Definition update (f : State -> State) (w : World) : World :=
  set_view (f (view w)) w.

(** [api.get(...)] followed by [await]: the call is logged and the caller
    is parked until the promise settles. *)
Definition api_get (r : Request) (k : Continuation) (w : World) : World :=
  mkWorld (view w) (clock w) (timers w) (next_timer w) (cleanup w)
          (calls w ++ [r]) (inflight w ++ [(next_call w, k)])
          (next_call w + 1).

(** [setTimeout(callback, delay)] of a callback built in render [cl];
    the new timer's id is the first component. *)
Definition setTimeout (cl : State) (delay : N) (w : World) : N * World :=
  (next_timer w,
   mkWorld (view w) (clock w)
           (timers w ++ [mkTimer (next_timer w) (clock w + delay) cl])
           (next_timer w + 1) (cleanup w)
           (calls w) (inflight w) (next_call w)).

Definition clearTimeout (id : N) (w : World) : World :=
  set_timers (filter (fun t => negb (timer_id t =? id)) (timers w)) w.

Definition set_cleanup (v : option N) (w : World) : World :=
  mkWorld (view w) (clock w) (timers w) (next_timer w) v
          (calls w) (inflight w) (next_call w).

(* ================================================================= *)
(** ** The component *)

(** The merchants of a perk list that pass
    [merchant => merchant && merchant.trim()]. *)
Definition keeps_merchant (m : option Js.str) : bool :=
  match m with
  | Some s => Js.truthy s && Js.truthy (Js.trim s)
  | None => false
  end.

Definition merchants_of (ps : list Perk) : list Js.str :=
  flat_map (fun m => match m with Some s => [s] | None => [] end)
           (filter keeps_merchant (map merchant ps)).

(** [const unique = [...new Set(merchants)]] *)
Definition unique_merchants (ps : list Perk) : list Js.str :=
  Js.set_of (merchants_of ps).

Definition fallback_message : Js.str := Js.lit "Failed to load perks".

(** [err?.response?.data?.message || 'Failed to load perks'] *)
Definition error_text (f : Failure) : Js.str :=
  Js.or_default (failure_message f) fallback_message.

(** [initialLoad], up to its [await]. *)
Definition initialLoad (w : World) : World :=
  api_get (mkRequest (Js.lit "/perks/all") None) InitialLoad w.

(** [initialLoad], from its [await] on: the [try] body after the call,
    the [catch] and the [finally]. *)
Definition initialLoad_resume (r : Response) (w : World) : World :=
  match r with
  | Resolved ps =>
      let w1 := update (setPerks ps) w in
      let unique := unique_merchants ps in
      let w2 := update (setAllMerchants unique) w1 in
      let w3 := update (setUniqueMerchants unique) w2 in
      update (setLoading false) w3
  | Rejected err =>
      let w1 := update (setError (error_text err)) w in
      update (setLoading false) w1
  end.

(** [loadAllPerks] of render [cl], up to its [await]. *)
Definition loadAllPerks (cl : State) (w : World) : World :=
  let w1 := update (setError []) w in
  let w2 := update (setLoading true) w1 in
  api_get (mkRequest (Js.lit "/perks/all")
             (Some (mkParams (Js.or_undefined (Js.trim (searchQuery cl)))
                             (Js.or_undefined (Js.trim (merchantFilter cl))))))
          (LoadAllPerks cl) w2.

(** [loadAllPerks] of render [cl], from its [await] on. *)
Definition loadAllPerks_resume (cl : State) (r : Response) (w : World) : World :=
  match r with
  | Resolved ps =>
      let w1 := update (setPerks ps) w in
      let w2 := update (setUniqueMerchants (allMerchants cl)) w1 in
      update (setLoading false) w2
  | Rejected err =>
      let w1 := update (setError (error_text err)) w in
      update (setLoading false) w1
  end.

(** [handleSearch] of render [cl]; [e.preventDefault()] touches nothing
    modelled here. *)
Definition handleSearch (cl : State) (w : World) : World :=
  loadAllPerks cl w.

(** [handleReset] of render [cl]. *)
Definition handleReset (cl : State) (w : World) : World :=
  let w1 := update (setSearchQuery []) w in
  let w2 := update (setMerchantFilter []) w1 in
  update (setUniqueMerchants (allMerchants cl)) w2.

(** The body of the second effect, run for the committed render: it arms
    the timer and hands back the cleanup that clears it. *)
Definition debounce_effect (w : World) : World :=
  let '(delayDebounce, w1) := setTimeout (view w) 500 w in
  set_cleanup (Some delayDebounce) w1.

Definition run_cleanup (w : World) : World :=
  match cleanup w with
  | Some id => clearTimeout id w
  | None => w
  end.

(** The dependency array [[searchQuery, merchantFilter]], compared
    element by element. *)
Definition same_deps (a b : State) : bool :=
  Js.eqb (searchQuery a) (searchQuery b)
  && Js.eqb (merchantFilter a) (merchantFilter b).

(** Commit after a batch of updates that started from render [prev]: an
    effect whose dependencies changed runs its cleanup, then its body.
    The first effect has no dependencies and never runs again. *)
Definition commit (prev : State) (w : World) : World :=
  if same_deps prev (view w) then w else debounce_effect (run_cleanup w).

(** First render and its effects, in source order. *)
Definition initial_world : World :=
  mkWorld initial_state 0 [] 0 None [] [] 0.

Definition mount : World :=
  debounce_effect (initialLoad initial_world).

(** A timer whose time has come: the entry has left the table, its
    callback runs and the updates it made are committed. *)
Definition fire (w : World) (t : Timer) : World :=
  commit (view w) (loadAllPerks (timer_closure t) w).

Definition is_due (now : N) (t : Timer) : bool := timer_due t <=? now.

Definition elapse (ms : N) (w : World) : World :=
  let now := clock w + ms in
  let due := filter (is_due now) (timers w) in
  let rest := filter (fun t => negb (is_due now t)) (timers w) in
  fold_left fire due (set_timers rest (set_clock now w)).

Definition continue (k : Continuation) (r : Response) (w : World) : World :=
  match k with
  | InitialLoad => initialLoad_resume r w
  | LoadAllPerks cl => loadAllPerks_resume cl r w
  end.

Fixpoint lookup_call (id : N) (l : list (N * Continuation)) : option Continuation :=
  match l with
  | [] => None
  | (i, k) :: l' => if i =? id then Some k else lookup_call id l'
  end.

Definition settle (id : N) (r : Response) (w : World) : World :=
  match lookup_call id (inflight w) with
  | Some k =>
      continue k r
        (set_inflight (filter (fun e => negb (fst e =? id)) (inflight w)) w)
  | None => w
  end.

(** What can happen to a mounted page. *)
Inductive Event :=
| TypeSearch (value : Js.str)        (* onChange of the text input *)
| SelectMerchant (value : Js.str)    (* onChange of the select *)
| Submit                             (* onSubmit of the form, Search Now *)
| Reset                              (* onClick of Reset Filters *)
| Elapse (ms : N)                    (* time passes, due timers fire *)
| Settle (id : N) (r : Response).    (* the id-th api.get settles *)

Definition step (w : World) (e : Event) : World :=
  match e with
  | TypeSearch v => commit (view w) (update (setSearchQuery v) w)
  | SelectMerchant v => commit (view w) (update (setMerchantFilter v) w)
  | Submit => commit (view w) (handleSearch (view w) w)
  | Reset => commit (view w) (handleReset (view w) w)
  | Elapse ms => elapse ms w
  | Settle id r => commit (view w) (settle id r w)
  end.

Definition run (w : World) (evs : list Event) : World := fold_left step evs w.

Definition reachable (w : World) : Prop := exists evs, w = run mount evs.

(* ================================================================= *)
(** ** Render *)

Record Card := mkCard {
  card_key : Js.str;
  card_to : Js.str;
  card_title : Js.str;
  card_merchant : option Js.str;
  card_badge : option Js.str
}.

Record Page := mkPage {
  page_count : Js.str;
  page_search_value : Js.str;
  page_merchant_value : Js.str;
  page_options : list (Js.str * Js.str);   (* value, label *)
  page_spinner : bool;
  page_error : option Js.str;
  page_cards : list Card;
  page_empty : bool
}.

Definition render_card (perk : Perk) : Card :=
  mkCard (_id perk)
         (Js.lit "/perks/" ++ _id perk)
         (title perk)
         (match merchant perk with
          | Some m => Js.or_undefined m
          | None => None
          end)
         (if (0 <? discountPercent perk)%Z
          then Some (Js.of_Z (discountPercent perk) ++ Js.lit "% OFF")
          else None).

Definition render (s : State) : Page :=
  let n := N.of_nat (List.length (perks s)) in
  mkPage (Js.lit "Showing " ++ Js.of_N n ++ Js.lit " perk"
          ++ (if negb (n =? 1) then Js.lit "s" else []))
         (searchQuery s)
         (merchantFilter s)
         ((Js.lit "", Js.lit "All Merchants")
          :: map (fun m => (m, m)) (uniqueMerchants s))
         (loading s)
         (Js.or_undefined (error s))
         (map render_card (perks s))
         (negb (loading s) && (n =? 0)).

(* ================================================================= *)
(** ** Notions used in the statements *)

(** The request [loadAllPerks] of render [cl] sends. *)
Definition filtered_request (cl : State) : Request :=
  mkRequest (Js.lit "/perks/all")
    (Some (mkParams (Js.or_undefined (Js.trim (searchQuery cl)))
                    (Js.or_undefined (Js.trim (merchantFilter cl))))).

(** A query parameter as the contract words it: sent with the trimmed
    value, left out when that value is empty. *)
Definition sent_param (name : string) (trimmed : Js.str) : list (Js.str * Js.str) :=
  match trimmed with
  | [] => []
  | _ :: _ => [(Js.lit name, trimmed)]
  end.

(** Deduplication as the contract words it, to compare with [Js.set_of]:
    walk the list once and keep a name unless it was met before. *)
Fixpoint first_occurrences (seen l : list Js.str) : list Js.str :=
  match l with
  | [] => []
  | x :: l' =>
      if Js.mem x seen then first_occurrences seen l'
      else x :: first_occurrences (x :: seen) l'
  end.

(** An event that changes [searchQuery] or [merchantFilter]. *)
Definition edits_filters (w : World) (e : Event) : bool :=
  negb (same_deps (view w) (view (step w e))).

(** A burst: each entry waits [gap] milliseconds and then applies an
    event; it is rapid when every gap is below the debounce delay and
    every event changes a filter. *)
Fixpoint rapid (w : World) (b : list (N * Event)) : Prop :=
  match b with
  | [] => True
  | (gap, e) :: b' =>
      gap < 500
      /\ edits_filters (elapse gap w) e = true
      /\ rapid (step (elapse gap w) e) b'
  end.

Fixpoint play (w : World) (b : list (N * Event)) : World :=
  match b with
  | [] => w
  | (gap, e) :: b' => play (step (elapse gap w) e) b'
  end.

(** The timer table and the stored cleanup agree: nothing is pending, or
    one timer is and the cleanup clears exactly that one. *)
Definition debounce_inv (w : World) : Prop :=
  timers w = [] \/ exists t, timers w = [t] /\ cleanup w = Some (timer_id t).

(** A change was just committed: its timer is the only one pending, it
    is due 500 ms from now and it belongs to the render on screen. *)
Definition armed (w : World) : Prop :=
  exists id,
    timers w = [mkTimer id (clock w + 500) (view w)] /\ cleanup w = Some id.

(** Every pending timer was created by a render with the filter values
    now on screen. *)
Definition timers_current (w : World) : Prop :=
  forall t, In t (timers w) ->
    searchQuery (timer_closure t) = searchQuery (view w)
    /\ merchantFilter (timer_closure t) = merchantFilter (view w).

(** A render whose [allMerchants] is still the initial empty list or is
    the list [full]. *)
Definition closure_ok (full : list Js.str) (cl : State) : Prop :=
  allMerchants cl = [] \/ allMerchants cl = full.

(** A pending promise: the initial load is call 0 and while it is pending
    the full list is empty; a [loadAllPerks] belongs to a render as
    above. *)
Definition pending_ok (full : list Js.str) (e : N * Continuation) : Prop :=
  match snd e with
  | InitialLoad => fst e = 0 /\ full = []
  | LoadAllPerks cl => closure_ok full cl
  end.

(** How the two merchant lists, the timers and the pending promises hang
    together. *)
Definition merchants_inv (w : World) : Prop :=
  (exists ps, allMerchants (view w) = unique_merchants ps)
  /\ (uniqueMerchants (view w) = []
      \/ uniqueMerchants (view w) = allMerchants (view w))
  /\ Forall (fun t => closure_ok (allMerchants (view w)) (timer_closure t)) (timers w)
  /\ Forall (pending_ok (allMerchants (view w))) (inflight w).

(** The spinner is on only while a promise is pending. *)
Definition spinner_inv (w : World) : Prop :=
  loading (view w) = true -> inflight w <> [].

(** Call ids are handed out in order: a pending promise has an id below
    the next one. *)
Definition ids_inv (w : World) : Prop :=
  Forall (fun e => fst e < next_call w) (inflight w).

(** The shape of the call log: the parameterless call of the initial load
    first, then calls that all carry a [params] object. *)
Definition log_inv (w : World) : Prop :=
  exists rest,
    calls w = mkRequest (Js.lit "/perks/all") None :: rest
    /\ Forall (fun r => exists cl, r = filtered_request cl) rest.

(** Sample data. *)
Definition perkA : Perk := mkPerk (Js.lit "1") (Js.lit "A") (Some (Js.lit "X")) 0.
Definition perkB : Perk := mkPerk (Js.lit "2") (Js.lit "B") (Some (Js.lit "Y")) 20.

(* ================================================================= *)
(** ** Facts about strings and sets *)

Section JsFacts.

Lemma eqb_eq (a b : Js.str) : Js.eqb a b = true <-> a = b.
Proof.
  unfold Js.eqb. destruct (list_eq_dec N.eq_dec a b); split; congruence.
Qed.

Lemma eqb_refl (a : Js.str) : Js.eqb a a = true.
Proof. now apply eqb_eq. Qed.

Lemma mem_In (x : Js.str) (l : list Js.str) : Js.mem x l = true <-> In x l.
Proof.
  unfold Js.mem. rewrite existsb_exists. split.
  - intros (y & Hy & E). apply eqb_eq in E. now subst.
  - intros H. exists x. split; [exact H | apply eqb_refl].
Qed.

Lemma truthy_nonempty (s : Js.str) : Js.truthy s = true <-> s <> [].
Proof. destruct s; simpl; split; congruence. Qed.

Lemma or_undefined_sent (name : string) (s : Js.str) :
  match Js.or_undefined s with
  | Some v => [(Js.lit name, v)]
  | None => []
  end = sent_param name s.
Proof. destruct s; reflexivity. Qed.

Lemma set_add_In (acc : list Js.str) (x y : Js.str) :
  In y (Js.set_add acc x) <-> In y acc \/ y = x.
Proof.
  unfold Js.set_add. destruct (Js.mem x acc) eqn:M.
  - apply mem_In in M. split; [now left | intros [H | ->]; assumption].
  - rewrite in_app_iff. simpl. intuition congruence.
Qed.

Lemma set_add_NoDup (acc : list Js.str) (x : Js.str) :
  NoDup acc -> NoDup (Js.set_add acc x).
Proof.
  intros H. unfold Js.set_add. destruct (Js.mem x acc) eqn:M; [exact H |].
  apply NoDup_app; [exact H | repeat constructor; intros [] |].
  intros a Ha [<- | []].
  apply mem_In in Ha. congruence.
Qed.

Lemma fold_set_add_In (l acc : list Js.str) (y : Js.str) :
  In y (fold_left Js.set_add l acc) <-> In y acc \/ In y l.
Proof.
  revert acc. induction l as [| x l IH]; intros acc; simpl.
  - tauto.
  - rewrite IH, set_add_In. intuition congruence.
Qed.

Lemma fold_set_add_NoDup (l acc : list Js.str) :
  NoDup acc -> NoDup (fold_left Js.set_add l acc).
Proof.
  revert acc. induction l as [| x l IH]; intros acc H; simpl.
  - exact H.
  - apply IH, set_add_NoDup, H.
Qed.

Lemma set_of_In (l : list Js.str) (y : Js.str) : In y (Js.set_of l) <-> In y l.
Proof. unfold Js.set_of. rewrite fold_set_add_In. simpl. tauto. Qed.

Lemma set_of_NoDup (l : list Js.str) : NoDup (Js.set_of l).
Proof. apply fold_set_add_NoDup. constructor. Qed.

Lemma mem_ext (s1 s2 : list Js.str) (x : Js.str) :
  (forall y, In y s1 <-> In y s2) -> Js.mem x s1 = Js.mem x s2.
Proof.
  intros H. destruct (Js.mem x s2) eqn:M.
  - apply mem_In. apply H. now apply mem_In.
  - destruct (Js.mem x s1) eqn:M1; [| reflexivity].
    apply mem_In, H, mem_In in M1. congruence.
Qed.

Lemma first_occurrences_ext (l s1 s2 : list Js.str) :
  (forall y, In y s1 <-> In y s2) ->
  first_occurrences s1 l = first_occurrences s2 l.
Proof.
  revert s1 s2. induction l as [| x l IH]; intros s1 s2 H; simpl.
  - reflexivity.
  - rewrite (mem_ext s1 s2 x H). destruct (Js.mem x s2).
    + now apply IH.
    + f_equal. apply IH. intros y. simpl. rewrite H. tauto.
Qed.

Lemma fold_set_add_first (l acc : list Js.str) :
  fold_left Js.set_add l acc = acc ++ first_occurrences acc l.
Proof.
  revert acc. induction l as [| x l IH]; intros acc; simpl.
  - now rewrite app_nil_r.
  - rewrite IH. unfold Js.set_add. destruct (Js.mem x acc).
    + reflexivity.
    + rewrite <- app_assoc. simpl. do 2 f_equal.
      apply first_occurrences_ext. intros y.
      rewrite in_app_iff. simpl. tauto.
Qed.

Lemma merchants_of_In (ps : list Perk) (m : Js.str) :
  In m (merchants_of ps) <->
  exists p, In p ps /\ merchant p = Some m /\ Js.trim m <> [].
Proof.
  unfold merchants_of. rewrite in_flat_map. split.
  - intros (o & Ho & Hm). apply filter_In in Ho. destruct Ho as [Ho K].
    apply in_map_iff in Ho. destruct Ho as (p & E & Hp).
    destruct o as [s |]; simpl in Hm; [| contradiction].
    destruct Hm as [-> | []].
    exists p. repeat split; try assumption.
    simpl in K. apply andb_true_iff in K. now apply truthy_nonempty.
  - intros (p & Hp & E & T). exists (Some m). split; [| now left].
    apply filter_In. split.
    + rewrite <- E. now apply in_map.
    + simpl. apply andb_true_iff. split; apply truthy_nonempty; [| exact T].
      intros ->. now apply T.
Qed.

End JsFacts.

(* ================================================================= *)
(** ** The merchant list of the initial load *)

(** C6. The merchant list a successful unfiltered load stores, both as the
    full list and as the dropdown's list, is [unique_merchants] of the
    returned perks, which keeps the first occurrence of each kept merchant
    name; it has no repeated name, every name in it is non-empty
    after trimming, and a name is in it exactly when it is the merchant of
    a returned perk and is not blank. *)
Theorem unique_merchants_dedup_nonblank :
  forall (ps : list Perk) (w : World),
    allMerchants (view (initialLoad_resume (Resolved ps) w)) = unique_merchants ps
    /\ uniqueMerchants (view (initialLoad_resume (Resolved ps) w)) = unique_merchants ps
    /\ unique_merchants ps = first_occurrences [] (merchants_of ps)
    /\ NoDup (unique_merchants ps)
    /\ Forall (fun m => Js.trim m <> []) (unique_merchants ps)
    /\ forall m, In m (unique_merchants ps) <->
                 exists p, In p ps /\ merchant p = Some m /\ Js.trim m <> [].
Proof.
  intros ps w.
  assert (Hin : forall m, In m (unique_merchants ps) <->
                 exists p, In p ps /\ merchant p = Some m /\ Js.trim m <> []).
  { intros m. unfold unique_merchants. rewrite set_of_In. apply merchants_of_In. }
  repeat split; try reflexivity.
  - unfold unique_merchants, Js.set_of. now rewrite fold_set_add_first.
  - apply set_of_NoDup.
  - apply Forall_forall. intros m Hm. apply Hin in Hm.
    destruct Hm as (_ & _ & _ & T). exact T.
  - apply Hin.
  - apply Hin.
Qed.

(* ================================================================= *)
(** ** Commits that leave the filters alone *)

Lemma same_deps_refl (s : State) : same_deps s s = true.
Proof. unfold same_deps. now rewrite !eqb_refl. Qed.

Lemma same_deps_fields (a b : State) :
  searchQuery b = searchQuery a ->
  merchantFilter b = merchantFilter a ->
  same_deps a b = true.
Proof. intros E1 E2. unfold same_deps. now rewrite E1, E2, !eqb_refl. Qed.

Lemma commit_same (prev : State) (w : World) :
  searchQuery (view w) = searchQuery prev ->
  merchantFilter (view w) = merchantFilter prev ->
  commit prev w = w.
Proof.
  intros E1 E2. unfold commit. now rewrite same_deps_fields.
Qed.

Lemma commit_view (prev : State) (w : World) : view (commit prev w) = view w.
Proof.
  unfold commit, debounce_effect, run_cleanup, clearTimeout.
  destruct (same_deps prev (view w)); [reflexivity |].
  destruct (cleanup w); reflexivity.
Qed.

Lemma commit_calls (prev : State) (w : World) :
  calls (commit prev w) = calls w /\ inflight (commit prev w) = inflight w
  /\ clock (commit prev w) = clock w.
Proof.
  unfold commit, debounce_effect, run_cleanup, clearTimeout.
  destruct (same_deps prev (view w)); [repeat split |].
  destruct (cleanup w); repeat split.
Qed.

Lemma fire_loadAllPerks (w : World) (t : Timer) :
  fire w t = loadAllPerks (timer_closure t) w.
Proof. unfold fire. now apply commit_same. Qed.

Lemma step_submit (w : World) : step w Submit = loadAllPerks (view w) w.
Proof. simpl. unfold handleSearch. now apply commit_same. Qed.

Lemma continue_rejected (k : Continuation) (f : Failure) (w : World) :
  continue k (Rejected f) w
  = update (setLoading false) (update (setError (error_text f)) w).
Proof. destruct k; reflexivity. Qed.

Lemma step_settle_rejected (w : World) (id : N) (k : Continuation) (f : Failure) :
  lookup_call id (inflight w) = Some k ->
  step w (Settle id (Rejected f))
  = update (setLoading false)
      (update (setError (error_text f))
         (set_inflight (filter (fun e => negb (fst e =? id)) (inflight w)) w)).
Proof.
  intros H. simpl. unfold settle. rewrite H, continue_rejected.
  now apply commit_same.
Qed.

Lemma error_text_truthy (f : Failure) : Js.truthy (error_text f) = true.
Proof. destruct f as [| st [[| c m] |]]; reflexivity. Qed.

(* ================================================================= *)
(** ** The filtered fetch *)

(** C7. Submitting the form calls the backend at once with the field
    values of the render on screen: the call is logged by the submit event
    itself, whatever the clock and the timer table are, and neither of
    them is touched. *)
Theorem submit_fetches_immediately :
  forall (w : World),
    calls (step w Submit) = calls w ++ [filtered_request (view w)]
    /\ inflight (step w Submit) = inflight w ++ [(next_call w, LoadAllPerks (view w))]
    /\ clock (step w Submit) = clock w
    /\ timers (step w Submit) = timers w.
Proof. intros w. rewrite step_submit. repeat split. Qed.

(* ================================================================= *)
(** ** Reset *)

(** C8. Reset Filters empties both filter fields and gives the dropdown
    the full merchant list again; it calls nothing. If a filter was set,
    the debounce effect has armed a timer for 500 ms later, otherwise the
    timer table is as before. *)
Theorem reset_clears_filters_without_fetch :
  forall (w : World),
    searchQuery (view (step w Reset)) = []
    /\ merchantFilter (view (step w Reset)) = []
    /\ uniqueMerchants (view (step w Reset)) = allMerchants (view w)
    /\ page_options (render (view (step w Reset)))
       = (Js.lit "", Js.lit "All Merchants")
         :: map (fun m => (m, m)) (allMerchants (view w))
    /\ calls (step w Reset) = calls w
    /\ inflight (step w Reset) = inflight w
    /\ (if same_deps (view w) (view (step w Reset))
        then timers (step w Reset) = timers w
        else In (mkTimer (next_timer w) (clock w + 500) (view (step w Reset)))
                (timers (step w Reset))).
Proof.
  intros w. simpl. rewrite !commit_view.
  destruct (commit_calls (view w) (handleReset (view w) w)) as (Ec & Ei & _).
  rewrite Ec, Ei. repeat split.
  unfold commit. simpl.
  destruct (same_deps (view w) _); [reflexivity |].
  unfold debounce_effect, run_cleanup, clearTimeout. simpl.
  destruct (cleanup w); simpl; apply in_or_app; right; now left.
Qed.

(* ================================================================= *)
(** ** Failures *)

(** C5. When a pending fetch fails, be it the initial load or a filtered
    one, by a network error or by a status outside 2xx, the page shows one
    error text: the message of the response when it has a non-empty one,
    else 'Failed to load perks'. The spinner stops, and the page goes on
    answering: a submit still calls the backend, the fields still take
    input. *)
Theorem fetch_failure_shows_error :
  forall (w : World) (id : N) (k : Continuation) (f : Failure),
    lookup_call id (inflight w) = Some k ->
    let w' := step w (Settle id (Rejected f)) in
    error (view w') = error_text f
    /\ error_text f = match failure_message f with
                      | Some (c :: m) => c :: m
                      | _ => Js.lit "Failed to load perks"
                      end
    /\ page_error (render (view w')) = Some (error_text f)
    /\ loading (view w') = false
    /\ page_spinner (render (view w')) = false
    /\ calls (step w' Submit) = calls w' ++ [filtered_request (view w')]
    /\ (forall v, searchQuery (view (step w' (TypeSearch v))) = v)
    /\ (forall v, merchantFilter (view (step w' (SelectMerchant v))) = v)
    /\ searchQuery (view (step w' Reset)) = [].
Proof.
  intros w id k f H w'. subst w'. rewrite (step_settle_rejected _ _ _ _ H).
  repeat split.
  - destruct f as [| st [[| c m] |]]; reflexivity.
  - simpl. unfold Js.or_undefined. now rewrite error_text_truthy.
  - now rewrite step_submit.
  - intros v. simpl. now rewrite commit_view.
  - intros v. simpl. now rewrite commit_view.
  - simpl. now rewrite commit_view.
Qed.

Lemma fetch_failure_shows_error_witness :
  lookup_call 0 (inflight mount) = Some InitialLoad
  /\ error (view (step mount (Settle 0 (Rejected (BadStatus 500 (Some (Js.lit "boom")))))))
     = Js.lit "boom".
Proof.
  split; [reflexivity |].
  exact (proj1 (fetch_failure_shows_error mount 0 InitialLoad
                  (BadStatus 500 (Some (Js.lit "boom"))) eq_refl)).
Defined.

(** C10. A failing fetch, initial or filtered, leaves the perks on screen
    and the dropdown's merchants as they were: from the call to the
    failure, only [error] and [loading] are written. *)
Theorem fetch_failure_keeps_lists :
  forall (w : World) (id : N) (k : Continuation) (f : Failure),
    lookup_call id (inflight w) = Some k ->
    let w' := step w (Settle id (Rejected f)) in
    view w' = setLoading false (setError (error_text f) (view w))
    /\ perks (view w') = perks (view w)
    /\ uniqueMerchants (view w') = uniqueMerchants (view w)
    /\ allMerchants (view w') = allMerchants (view w)
    /\ page_cards (render (view w')) = page_cards (render (view w))
    /\ page_options (render (view w')) = page_options (render (view w))
    /\ view (initialLoad w) = view w
    /\ forall cl, view (loadAllPerks cl w) = setLoading true (setError [] (view w)).
Proof.
  intros w id k f H w'. subst w'. rewrite (step_settle_rejected _ _ _ _ H).
  repeat split.
Qed.

Lemma fetch_failure_keeps_lists_witness :
  lookup_call 1 (inflight (step mount (Elapse 500)))
    = Some (LoadAllPerks initial_state)
  /\ perks (view (step (step mount (Elapse 500)) (Settle 1 (Rejected NetworkError))))
     = perks (view (step mount (Elapse 500))).
Proof.
  split; [reflexivity |].
  exact (proj1 (proj2 (fetch_failure_keeps_lists (step mount (Elapse 500)) 1
                         (LoadAllPerks initial_state) NetworkError eq_refl))).
Defined.

(* ================================================================= *)
(** ** Rendering *)

Lemma badge_iff_discount (p : Perk) :
  card_badge (render_card p) <> None <-> (0 < discountPercent p)%Z.
Proof.
  simpl. destruct (0 <? discountPercent p)%Z eqn:D.
  - apply Z.ltb_lt in D. split; [intros _; exact D | discriminate].
  - apply Z.ltb_ge in D. split; [congruence | lia].
Qed.

(** C9. With the two sample perks on screen the grid has two cards, the
    first without a discount badge and the second with the badge
    "20% OFF", and the count reads "Showing 2 perks"; a card has a badge
    exactly when its perk's discount is above zero. *)
Theorem render_two_perks :
  forall (s : State),
    let page := render (setPerks [perkA; perkB] s) in
    List.length (page_cards page) = 2%nat
    /\ map card_badge (page_cards page) = [None; Some (Js.lit "20% OFF")]
    /\ map card_title (page_cards page) = [Js.lit "A"; Js.lit "B"]
    /\ page_count page = Js.lit "Showing 2 perks"
    /\ forall p, card_badge (render_card p) <> None <-> (0 < discountPercent p)%Z.
Proof.
  intros s page. subst page. repeat split; try apply badge_iff_discount.
Qed.

(* ================================================================= *)
(** ** The debounce timer *)

Section Debounce.

Lemma debounce_inv_ext (w w' : World) :
  timers w' = timers w -> cleanup w' = cleanup w ->
  debounce_inv w -> debounce_inv w'.
Proof. unfold debounce_inv. intros -> ->. exact (fun H => H). Qed.

Lemma armed_debounce_inv (w : World) : armed w -> debounce_inv w.
Proof. intros (id & Ht & Hc). right. eexists. split; [exact Ht | exact Hc]. Qed.

(** A commit that sees changed filters, from a state where the stored
    cleanup covers the timer table: the old timer goes, one new timer
    stays. *)
Lemma commit_changed (prev : State) (w : World) :
  debounce_inv w ->
  same_deps prev (view w) = false ->
  commit prev w
  = mkWorld (view w) (clock w)
            [mkTimer (next_timer w) (clock w + 500) (view w)]
            (next_timer w + 1) (Some (next_timer w))
            (calls w) (inflight w) (next_call w).
Proof.
  intros Inv D. unfold commit. rewrite D.
  unfold debounce_effect, run_cleanup, clearTimeout.
  destruct Inv as [E | (t & E & C)].
  - destruct (cleanup w); simpl; rewrite E; reflexivity.
  - rewrite C. simpl. rewrite E. simpl. now rewrite N.eqb_refl.
Qed.

Lemma commit_inv (prev : State) (w : World) :
  debounce_inv w -> debounce_inv (commit prev w).
Proof.
  intros Inv. destruct (same_deps prev (view w)) eqn:D.
  - unfold commit. now rewrite D.
  - rewrite (commit_changed _ _ Inv D). right. eexists. split; reflexivity.
Qed.

Lemma fold_fire_calm (l : list Timer) (w : World) :
  timers (fold_left fire l w) = timers w
  /\ cleanup (fold_left fire l w) = cleanup w
  /\ searchQuery (view (fold_left fire l w)) = searchQuery (view w)
  /\ merchantFilter (view (fold_left fire l w)) = merchantFilter (view w).
Proof.
  revert w. induction l as [| t l IH]; intros w; simpl.
  - repeat split.
  - destruct (IH (fire w t)) as (E1 & E2 & E3 & E4).
    rewrite E1, E2, E3, E4, fire_loadAllPerks. repeat split.
Qed.

Lemma continue_calm (k : Continuation) (r : Response) (w : World) :
  timers (continue k r w) = timers w
  /\ cleanup (continue k r w) = cleanup w
  /\ searchQuery (view (continue k r w)) = searchQuery (view w)
  /\ merchantFilter (view (continue k r w)) = merchantFilter (view w).
Proof. destruct k, r; repeat split. Qed.

Lemma settle_calm (id : N) (r : Response) (w : World) :
  timers (settle id r w) = timers w
  /\ cleanup (settle id r w) = cleanup w
  /\ searchQuery (view (settle id r w)) = searchQuery (view w)
  /\ merchantFilter (view (settle id r w)) = merchantFilter (view w).
Proof.
  unfold settle. destruct (lookup_call id (inflight w)) as [k |]; [| repeat split].
  match goal with |- context [continue k r ?w0] =>
    destruct (continue_calm k r w0) as (E1 & E2 & E3 & E4)
  end.
  rewrite E1, E2, E3, E4. repeat split.
Qed.

Lemma elapse_filters (ms : N) (w : World) :
  searchQuery (view (elapse ms w)) = searchQuery (view w)
  /\ merchantFilter (view (elapse ms w)) = merchantFilter (view w).
Proof.
  unfold elapse.
  destruct (fold_fire_calm (filter (is_due (clock w + ms)) (timers w))
              (set_timers (filter (fun t => negb (is_due (clock w + ms) t)) (timers w))
                          (set_clock (clock w + ms) w))) as (_ & _ & E3 & E4).
  rewrite E3, E4. repeat split.
Qed.

Lemma debounce_inv_step (w : World) (e : Event) :
  debounce_inv w -> debounce_inv (step w e).
Proof.
  intros Inv. destruct e as [v | v | | | ms | id r]; simpl.
  1-4: apply commit_inv; revert Inv; now apply debounce_inv_ext.
  - unfold elapse.
    match goal with |- debounce_inv (fold_left fire ?l ?w0) =>
      destruct (fold_fire_calm l w0) as (E1 & E2 & _);
      apply (debounce_inv_ext w0); [exact E1 | exact E2 |]
    end.
    destruct Inv as [E | (t & E & C)]; unfold debounce_inv; simpl; rewrite E; simpl.
    + now left.
    + destruct (is_due (clock w + ms) t); simpl; [now left |].
      right. exists t. now split.
  - apply commit_inv.
    destruct (settle_calm id r w) as (E1 & E2 & _).
    revert Inv. now apply debounce_inv_ext.
Qed.

Lemma debounce_inv_mount : debounce_inv mount.
Proof. right. eexists. split; reflexivity. Qed.

Lemma reachable_debounce_inv (w : World) : reachable w -> debounce_inv w.
Proof.
  intros (evs & ->). induction evs as [| e evs IH] using rev_ind.
  - exact debounce_inv_mount.
  - unfold run. rewrite fold_left_app. simpl. now apply debounce_inv_step.
Qed.

Lemma debounce_inv_length (w : World) :
  debounce_inv w -> (List.length (timers w) <= 1)%nat.
Proof. intros [E | (t & E & _)]; rewrite E; simpl; lia. Qed.

(** Only the three editing events can change a filter. *)
Lemma step_filters (w : World) (e : Event) :
  edits_filters w e = true ->
  exists f, step w e = commit (view w) (update f w).
Proof.
  unfold edits_filters. intros H. apply negb_true_iff in H.
  destruct e as [v | v | | | ms | id r].
  - now eexists.
  - now eexists.
  - rewrite step_submit in H.
    now rewrite same_deps_fields in H.
  - exists (fun s => setUniqueMerchants (allMerchants (view w))
                       (setMerchantFilter [] (setSearchQuery [] s))).
    reflexivity.
  - simpl in H. destruct (elapse_filters ms w) as (E1 & E2).
    now rewrite (same_deps_fields _ _ E1 E2) in H.
  - simpl in H. rewrite commit_view in H.
    destruct (settle_calm id r w) as (_ & _ & E1 & E2).
    now rewrite (same_deps_fields _ _ E1 E2) in H.
Qed.

Lemma edit_arms (w : World) (e : Event) :
  debounce_inv w ->
  edits_filters w e = true ->
  armed (step w e) /\ calls (step w e) = calls w /\ clock (step w e) = clock w.
Proof.
  intros Inv H. destruct (step_filters w e H) as (f & E).
  unfold edits_filters in H. apply negb_true_iff in H.
  rewrite E, commit_view in H. rewrite E.
  assert (Inv' : debounce_inv (update f w))
    by (revert Inv; now apply debounce_inv_ext).
  rewrite (commit_changed _ _ Inv' H). simpl. repeat split.
  eexists. split; reflexivity.
Qed.

Lemma armed_elapse_early (w : World) (d : N) :
  armed w -> d < 500 -> elapse d w = set_clock (clock w + d) w.
Proof.
  intros (id & Ht & _) Hd. unfold elapse. rewrite Ht. simpl.
  unfold is_due. simpl.
  replace (clock w + 500 <=? clock w + d) with false
    by (symmetry; apply N.leb_gt; lia).
  simpl. unfold set_timers, set_clock. simpl. now rewrite Ht.
Qed.

Lemma armed_elapse_late (w : World) (d : N) :
  armed w -> 500 <= d ->
  calls (elapse d w) = calls w ++ [filtered_request (view w)]
  /\ timers (elapse d w) = [].
Proof.
  intros (id & Ht & _) Hd. unfold elapse. rewrite Ht. simpl.
  unfold is_due. simpl.
  replace (clock w + 500 <=? clock w + d) with true
    by (symmetry; apply N.leb_le; lia).
  simpl. rewrite fire_loadAllPerks. repeat split.
Qed.

Lemma play_rapid (b : list (N * Event)) (w : World) :
  armed w -> rapid w b ->
  armed (play w b) /\ calls (play w b) = calls w.
Proof.
  revert w. induction b as [| [gap e] b IH]; intros w A R; simpl.
  - now split.
  - destruct R as (Hgap & He & R).
    pose proof (armed_elapse_early w gap A Hgap) as Eq.
    assert (Inv : debounce_inv (elapse gap w)).
    { rewrite Eq. apply armed_debounce_inv in A. revert A.
      now apply debounce_inv_ext. }
    destruct (edit_arms _ _ Inv He) as (A' & C' & _).
    destruct (IH _ A' R) as (A'' & C'').
    split; [exact A'' |]. rewrite C'', C', Eq. reflexivity.
Qed.

Lemma same_deps_true (a b : State) :
  same_deps a b = true ->
  searchQuery a = searchQuery b /\ merchantFilter a = merchantFilter b.
Proof.
  unfold same_deps. intros H. apply andb_true_iff in H.
  destruct H as [H1 H2]. now apply eqb_eq in H1, H2.
Qed.

Lemma commit_current (w0 w : World) :
  debounce_inv w0 -> timers_current w0 ->
  timers w = timers w0 -> cleanup w = cleanup w0 ->
  timers_current (commit (view w0) w).
Proof.
  intros Inv Cur Et Ec. destruct (same_deps (view w0) (view w)) eqn:D.
  - unfold commit. rewrite D. intros t Ht. rewrite Et in Ht.
    destruct (same_deps_true _ _ D) as [<- <-]. now apply Cur.
  - rewrite commit_changed; [| revert Inv; now apply debounce_inv_ext | exact D].
    intros t [<- | []]. now split.
Qed.

Lemma timers_current_step (w : World) (e : Event) :
  debounce_inv w -> timers_current w -> timers_current (step w e).
Proof.
  intros Inv Cur. destruct e as [v | v | | | ms | id r]; simpl.
  1-4: now apply commit_current.
  - intros t Ht. destruct (elapse_filters ms w) as (-> & ->).
    apply Cur. unfold elapse in Ht.
    match type of Ht with In t (timers (fold_left fire ?l ?w0)) =>
      destruct (fold_fire_calm l w0) as (E1 & _); rewrite E1 in Ht
    end.
    simpl in Ht. now apply filter_In in Ht.
  - destruct (settle_calm id r w) as (E1 & E2 & _).
    now apply commit_current.
Qed.

Lemma reachable_timers_current (w : World) :
  reachable w -> debounce_inv w /\ timers_current w.
Proof.
  intros (evs & ->). induction evs as [| e evs IH] using rev_ind.
  - split; [exact debounce_inv_mount |]. intros t [<- | []]. now split.
  - unfold run. rewrite fold_left_app. simpl. destruct IH as [Inv Cur].
    split; [now apply debounce_inv_step | now apply timers_current_step].
Qed.

Lemma filtered_request_deps (a b : State) :
  searchQuery a = searchQuery b -> merchantFilter a = merchantFilter b ->
  filtered_request a = filtered_request b.
Proof. unfold filtered_request. now intros -> ->. Qed.

End Debounce.

(* ================================================================= *)
(** ** The filtered fetch *)

(** C4. Whatever the search text and the merchant filter of a render
    are, its [loadAllPerks] calls [GET /perks/all] once, and the query on
    the wire carries [search] and [merchant] with the trimmed values,
    leaving a parameter out when its trimmed value is empty. On a state
    the page can reach, a call made by the debounce timer is that request
    for the filter values on screen. *)
Theorem loadAllPerks_sends_trimmed_params :
  forall (cl : State) (w : World),
    calls (loadAllPerks cl w) = calls w ++ [filtered_request cl]
    /\ url (filtered_request cl) = Js.lit "/perks/all"
    /\ query (filtered_request cl)
       = sent_param "search" (Js.trim (searchQuery cl))
         ++ sent_param "merchant" (Js.trim (merchantFilter cl))
    /\ (reachable w ->
        forall ms,
          calls (step w (Elapse ms)) = calls w
          \/ calls (step w (Elapse ms)) = calls w ++ [filtered_request (view w)]).
Proof.
  intros cl w. repeat split.
  - unfold query, filtered_request, query_of_params. simpl.
    now rewrite !or_undefined_sent.
  - intros R ms. destruct (reachable_timers_current w R) as [Inv Cur].
    simpl. unfold elapse.
    destruct Inv as [E | (t & E & _)]; rewrite E; simpl; [now left |].
    destruct (is_due (clock w + ms) t); simpl; [| now left].
    right. rewrite fire_loadAllPerks.
    destruct (Cur t) as [E1 E2]; [rewrite E; now left |].
    now rewrite <- (filtered_request_deps _ _ E1 E2).
Qed.

Lemma loadAllPerks_sends_trimmed_params_witness :
  reachable (step mount (TypeSearch (Js.lit " tea ")))
  /\ calls (step (step mount (TypeSearch (Js.lit " tea "))) (Elapse 500))
     = calls mount ++ [filtered_request (setSearchQuery (Js.lit " tea ") initial_state)]
  /\ query (filtered_request (setSearchQuery (Js.lit " tea ") initial_state))
     = [(Js.lit "search", Js.lit "tea")].
Proof.
  assert (R : reachable (step mount (TypeSearch (Js.lit " tea "))))
    by (exists [TypeSearch (Js.lit " tea ")]; reflexivity).
  split; [exact R |].
  destruct (loadAllPerks_sends_trimmed_params
              (setSearchQuery (Js.lit " tea ") initial_state)
              (step mount (TypeSearch (Js.lit " tea "))))
    as (_ & _ & Q & T).
  split; [| exact Q].
  destruct (T R 500) as [T1 | T1]; [discriminate T1 | exact T1].
Defined.

(** C3. On every state the page can reach, at most one timer is pending.
    An event that changes the search text or the merchant filter calls
    nothing itself; it clears the pending timer and arms one for 500 ms
    later. However many further changes follow, each less than 500 ms
    after the one before, no call is made meanwhile and one timer is
    pending at the end; no call is made while less than 500 ms have passed
    since the last change, and once 500 ms have passed exactly one call is
    made, with the filter values of the last change. *)
Theorem debounce_collapses_rapid_changes :
  forall (w : World),
    reachable w ->
    (List.length (timers w) <= 1)%nat
    /\ forall (e : Event) (b : list (N * Event)),
         edits_filters w e = true ->
         rapid (step w e) b ->
         let w' := play (step w e) b in
         calls (step w e) = calls w
         /\ timers (step w e)
            = [mkTimer (next_timer w) (clock w + 500) (view (step w e))]
         /\ calls w' = calls w
         /\ (exists id, timers w' = [mkTimer id (clock w' + 500) (view w')])
         /\ (forall d, d < 500 -> calls (elapse d w') = calls w)
         /\ (forall d, 500 <= d ->
                calls (elapse d w') = calls w ++ [filtered_request (view w')]
                /\ timers (elapse d w') = []).
Proof.
  intros w R. apply reachable_debounce_inv in R.
  split; [now apply debounce_inv_length |].
  intros e b He Hb w'. subst w'.
  destruct (edit_arms w e R He) as (A & C & K).
  destruct (play_rapid b _ A Hb) as (A' & C').
  repeat split.
  - exact C.
  - destruct (step_filters w e He) as (f & E).
    unfold edits_filters in He. apply negb_true_iff in He.
    rewrite E, commit_view in He. rewrite E.
    rewrite commit_changed; [reflexivity | | exact He].
    revert R. now apply debounce_inv_ext.
  - now rewrite C', C.
  - destruct A' as (id & Ht & _). now exists id.
  - intros d Hd. rewrite (armed_elapse_early _ d A' Hd). simpl.
    now rewrite C', C.
  - destruct (armed_elapse_late _ d A' H) as (E & _). now rewrite E, C', C.
  - now destruct (armed_elapse_late _ d A' H).
Qed.

Lemma debounce_collapses_rapid_changes_witness :
  reachable mount
  /\ edits_filters mount (TypeSearch (Js.lit "a")) = true
  /\ rapid (step mount (TypeSearch (Js.lit "a"))) [(100, TypeSearch (Js.lit "ab"))]
  /\ calls (elapse 500 (play (step mount (TypeSearch (Js.lit "a")))
                             [(100, TypeSearch (Js.lit "ab"))]))
     = calls mount ++ [filtered_request (setSearchQuery (Js.lit "ab") initial_state)].
Proof.
  assert (R : reachable mount) by (exists []; reflexivity).
  assert (Hb : rapid (step mount (TypeSearch (Js.lit "a")))
                     [(100, TypeSearch (Js.lit "ab"))]) by (repeat split).
  split; [exact R |]. split; [reflexivity |]. split; [exact Hb |].
  destruct (debounce_collapses_rapid_changes mount R) as [_ T].
  destruct (T (TypeSearch (Js.lit "a")) [(100, TypeSearch (Js.lit "ab"))]
              eq_refl Hb) as (_ & _ & _ & _ & _ & T6).
  refine (proj1 (T6 500 _)). discriminate.
Defined.

(* ================================================================= *)
(** ** Mount *)

(** What the first fetch does when it succeeds on a freshly mounted page. *)
Lemma initial_load_populates (ps : list Perk) :
  perks (view (step mount (Settle 0 (Resolved ps)))) = ps
  /\ allMerchants (view (step mount (Settle 0 (Resolved ps)))) = unique_merchants ps
  /\ uniqueMerchants (view (step mount (Settle 0 (Resolved ps)))) = unique_merchants ps
  /\ loading (view (step mount (Settle 0 (Resolved ps)))) = false.
Proof. repeat split. Qed.

(** C1. Mounting calls [GET /perks/all] without parameters once, and that
    call's result fills the perks, the full merchant list and the
    dropdown. The debounce effect runs on mount as well: with no input at
    all, 500 ms later its timer makes a second call, whose query is empty
    too, so two unfiltered fetches follow a mount, not one. *)
Theorem mount_fetches_unfiltered_twice :
  calls mount = [mkRequest (Js.lit "/perks/all") None]
  /\ timers mount = [mkTimer 0 500 initial_state]
  /\ calls (run mount [Elapse 499]) = calls mount
  /\ calls (run mount [Elapse 500])
     = [mkRequest (Js.lit "/perks/all") None; filtered_request initial_state]
  /\ map query (calls (run mount [Elapse 500])) = [[]; []]
  /\ List.length (calls (run mount [Settle 0 (Resolved [perkA; perkB]); Elapse 500]))
     = 2%nat.
Proof. repeat split. Qed.

(** C2. The [loadAllPerks] that a timer or a pending fetch resumes is the
    one of the render that created it, and it writes that render's
    [allMerchants] into the dropdown. After a mount whose initial load
    returned merchants X and Y, the timer armed by the mount render fires
    at 500 ms, its fetch succeeds, and the dropdown is left with no
    merchant although the full list holds X and Y. The same happens to a
    filter typed before the initial load has returned. *)
Theorem stale_render_empties_dropdown :
  let both := Resolved [perkA; perkB] in
  let w1 := run mount [Settle 0 both; Elapse 500; Settle 1 both] in
  let w2 := run mount [TypeSearch (Js.lit "A"); Settle 0 both; Elapse 500;
                       Settle 1 (Resolved [perkA])] in
  (forall cl ps w,
      uniqueMerchants (view (loadAllPerks_resume cl (Resolved ps) w)) = allMerchants cl)
  /\ uniqueMerchants (view (run mount [Settle 0 both])) = [Js.lit "X"; Js.lit "Y"]
  /\ allMerchants (view w1) = [Js.lit "X"; Js.lit "Y"]
  /\ uniqueMerchants (view w1) = []
  /\ page_options (render (view w1)) = [(Js.lit "", Js.lit "All Merchants")]
  /\ allMerchants (view w2) = [Js.lit "X"; Js.lit "Y"]
  /\ uniqueMerchants (view w2) = []
  /\ calls w2 = [mkRequest (Js.lit "/perks/all") None;
                 filtered_request (setSearchQuery (Js.lit "A") initial_state)].
Proof. repeat split. Qed.

(* ================================================================= *)
(** ** What [trim] leaves of a filter *)

Section Trim.

Lemma trimStart_split (s : Js.str) :
  exists a, s = a ++ Js.trimStart s /\ forallb Js.is_space a = true.
Proof.
  induction s as [| c s (a & E & Ha)]; simpl.
  - now exists [].
  - destruct (Js.is_space c) eqn:C.
    + exists (c :: a). simpl. rewrite C, Ha. split; [now f_equal | reflexivity].
    + now exists [].
Qed.

Lemma trimStart_head (s : Js.str) (c : N) (r : Js.str) :
  Js.trimStart s = c :: r -> Js.is_space c = false.
Proof.
  induction s as [| d s IH]; simpl; [discriminate |].
  destruct (Js.is_space d) eqn:D; [exact IH |].
  intros E. injection E as -> _. exact D.
Qed.

Lemma trimStart_fixed (s : Js.str) :
  match s with c :: _ => Js.is_space c = false | [] => True end ->
  Js.trimStart s = s.
Proof. destruct s as [| c s]; simpl; [reflexivity | now intros ->]. Qed.

Lemma trimStart_idem (s : Js.str) : Js.trimStart (Js.trimStart s) = Js.trimStart s.
Proof.
  apply trimStart_fixed. destruct (Js.trimStart s) as [| c r] eqn:E; [exact I |].
  exact (trimStart_head _ _ _ E).
Qed.

Lemma trimStart_nil (s : Js.str) :
  Js.trimStart s = [] <-> forallb Js.is_space s = true.
Proof.
  induction s as [| c s IH]; simpl; [tauto |].
  destruct (Js.is_space c); simpl; [exact IH | split; discriminate].
Qed.

Lemma forallb_rev (f : N -> bool) (l : list N) :
  forallb f (rev l) = forallb f l.
Proof.
  destruct (forallb f l) eqn:E.
  - rewrite forallb_forall in *. intros x Hx. apply E. now apply in_rev.
  - destruct (forallb f (rev l)) eqn:E'; [| reflexivity].
    rewrite forallb_forall in E'.
    assert (forallb f l = true) as K; [| congruence].
    apply forallb_forall. intros x Hx. apply E'. now apply in_rev in Hx.
Qed.

Lemma trimEnd_split (s : Js.str) :
  exists b, s = Js.trimEnd s ++ b /\ forallb Js.is_space b = true.
Proof.
  destruct (trimStart_split (rev s)) as (a & E & Ha).
  exists (rev a). split; [| now rewrite forallb_rev].
  unfold Js.trimEnd. rewrite <- rev_app_distr, <- E. now rewrite rev_involutive.
Qed.

Lemma trimEnd_idem (s : Js.str) : Js.trimEnd (Js.trimEnd s) = Js.trimEnd s.
Proof. unfold Js.trimEnd. now rewrite rev_involutive, trimStart_idem. Qed.

Lemma trim_split (s : Js.str) :
  exists a b,
    s = a ++ Js.trim s ++ b
    /\ forallb Js.is_space a = true /\ forallb Js.is_space b = true.
Proof.
  destruct (trimStart_split s) as (a & Ea & Ha).
  destruct (trimEnd_split (Js.trimStart s)) as (b & Eb & Hb).
  exists a, b. unfold Js.trim. now rewrite <- Eb.
Qed.

Lemma trim_no_leading (s : Js.str) : Js.trimStart (Js.trim s) = Js.trim s.
Proof.
  apply trimStart_fixed. unfold Js.trim.
  destruct (trimEnd_split (Js.trimStart s)) as (b & Eb & _).
  destruct (Js.trimEnd (Js.trimStart s)) as [| c r]; [exact I |].
  exact (trimStart_head _ _ _ Eb).
Qed.

Lemma trim_no_trailing (s : Js.str) : Js.trimEnd (Js.trim s) = Js.trim s.
Proof. unfold Js.trim. apply trimEnd_idem. Qed.

Lemma trim_idem (s : Js.str) : Js.trim (Js.trim s) = Js.trim s.
Proof.
  unfold Js.trim at 1. now rewrite trim_no_leading, trim_no_trailing.
Qed.

Lemma trim_nil (s : Js.str) :
  Js.trim s = [] <-> forallb Js.is_space s = true.
Proof.
  split.
  - intros E. destruct (trim_split s) as (a & b & Es & Ha & Hb).
    rewrite E in Es. rewrite Es, forallb_app, Ha. exact Hb.
  - intros H. apply trimStart_nil in H. unfold Js.trim. now rewrite H.
Qed.

Lemma sent_param_nil (name : string) (v : Js.str) :
  sent_param name v = [] <-> v = [].
Proof. destruct v; simpl; split; congruence. Qed.

Lemma sent_param_In (name : string) (v : Js.str) (e : Js.str * Js.str) :
  In e (sent_param name v) -> e = (Js.lit name, v) /\ v <> [].
Proof.
  destruct v as [| c r]; simpl; [tauto |].
  intros [<- | []]. split; [reflexivity | discriminate].
Qed.

Lemma query_filtered_request (cl : State) :
  query (filtered_request cl)
  = sent_param "search" (Js.trim (searchQuery cl))
    ++ sent_param "merchant" (Js.trim (merchantFilter cl)).
Proof.
  unfold query, filtered_request, query_of_params. simpl.
  now rewrite !or_undefined_sent.
Qed.

End Trim.

(** X1. The request of a render has an empty query, the one of the
    unfiltered load, exactly when the search text and the merchant filter
    both consist of white space only (the empty text included). *)
Theorem blank_filters_send_no_query :
  forall (cl : State),
    query (filtered_request cl) = []
    <-> forallb Js.is_space (searchQuery cl) = true
        /\ forallb Js.is_space (merchantFilter cl) = true.
Proof.
  intros cl. rewrite query_filtered_request. split.
  - intros E. apply app_eq_nil in E. destruct E as [E1 E2].
    apply sent_param_nil in E1, E2. now rewrite <- !trim_nil.
  - intros [H1 H2]. apply trim_nil in H1, H2. now rewrite H1, H2.
Qed.

(** X2. Every parameter on the wire of a filtered fetch is [search] or
    [merchant]; its value is not empty, has no white space at either end,
    and is the corresponding field of the render with white space removed
    from both ends only. *)
Theorem sent_values_are_field_cores :
  forall (cl : State) (name v : Js.str),
    In (name, v) (query (filtered_request cl)) ->
    v <> []
    /\ Js.trimStart v = v /\ Js.trimEnd v = v
    /\ exists a b,
         forallb Js.is_space a = true /\ forallb Js.is_space b = true
         /\ ((name = Js.lit "search" /\ searchQuery cl = a ++ v ++ b)
             \/ (name = Js.lit "merchant" /\ merchantFilter cl = a ++ v ++ b)).
Proof.
  intros cl name v H. rewrite query_filtered_request in H.
  apply in_app_iff in H.
  destruct H as [H | H]; apply sent_param_In in H; destruct H as [E Hv];
    injection E as -> ->.
  - split; [exact Hv |]. split; [apply trim_no_leading |].
    split; [apply trim_no_trailing |].
    destruct (trim_split (searchQuery cl)) as (a & b & Es & Ha & Hb).
    exists a, b. repeat split; try assumption. left. now split.
  - split; [exact Hv |]. split; [apply trim_no_leading |].
    split; [apply trim_no_trailing |].
    destruct (trim_split (merchantFilter cl)) as (a & b & Es & Ha & Hb).
    exists a, b. repeat split; try assumption. right. now split.
Qed.

Lemma sent_values_are_field_cores_witness :
  In (Js.lit "search", Js.lit "green tea")
     (query (filtered_request
               (setSearchQuery (Js.lit "  green tea ") initial_state)))
  /\ Js.trimEnd (Js.lit "green tea") = Js.lit "green tea".
Proof.
  assert (H : In (Js.lit "search", Js.lit "green tea")
                 (query (filtered_request
                           (setSearchQuery (Js.lit "  green tea ") initial_state))))
    by (left; reflexivity).
  split; [exact H |].
  exact (proj1 (proj2 (proj2 (sent_values_are_field_cores _ _ _ H)))).
Defined.

(* ================================================================= *)
(** ** The two merchant lists on reachable states *)

Section Merchants.

Lemma reachable_step (w : World) (e : Event) : reachable w -> reachable (step w e).
Proof.
  intros (evs & ->). exists (evs ++ [e]). unfold run. now rewrite fold_left_app.
Qed.

Lemma reachable_induction (P : World -> Prop) :
  P mount ->
  (forall w e, reachable w -> P w -> P (step w e)) ->
  forall w, reachable w -> P w.
Proof.
  intros H0 Hs w (evs & ->). induction evs as [| e evs IH] using rev_ind.
  - exact H0.
  - unfold run. rewrite fold_left_app. simpl.
    apply Hs; [now exists evs | exact IH].
Qed.

Lemma lookup_call_In (id : N) (l : list (N * Continuation)) (k : Continuation) :
  lookup_call id l = Some k -> In (id, k) l.
Proof.
  induction l as [| [i k'] l IH]; simpl; [discriminate |].
  destruct (i =? id) eqn:E.
  - apply N.eqb_eq in E. intros [= ->]. left. now subst.
  - intros H. right. now apply IH.
Qed.

Lemma Forall_filter_keep {A : Type} (P : A -> Prop) (f : A -> bool) (l : list A) :
  Forall P l -> Forall P (filter f l).
Proof. apply incl_Forall, incl_filter. Qed.

Lemma merchants_inv_ext (w w' : World) :
  allMerchants (view w') = allMerchants (view w) ->
  uniqueMerchants (view w') = uniqueMerchants (view w) ->
  timers w' = timers w -> inflight w' = inflight w ->
  merchants_inv w -> merchants_inv w'.
Proof. unfold merchants_inv. intros -> -> -> ->. exact (fun H => H). Qed.

Lemma commit_merchants (prev : State) (w : World) :
  merchants_inv w -> merchants_inv (commit prev w).
Proof.
  unfold commit. destruct (same_deps prev (view w)); [exact (fun H => H) |].
  intros (A & B & C & D).
  unfold debounce_effect, run_cleanup, clearTimeout, merchants_inv.
  destruct (cleanup w); simpl; repeat split; try assumption;
    apply Forall_app; split;
    try (constructor; [right; reflexivity | constructor]);
    [now apply Forall_filter_keep | assumption].
Qed.

Lemma loadAllPerks_merchants (cl : State) (w : World) :
  merchants_inv w -> closure_ok (allMerchants (view w)) cl ->
  merchants_inv (loadAllPerks cl w).
Proof.
  intros (A & B & C & D) H. unfold merchants_inv. simpl.
  repeat split; try assumption.
  apply Forall_app. split; [assumption |]. constructor; [exact H | constructor].
Qed.

Lemma fold_fire_merchants (l : list Timer) (w : World) :
  merchants_inv w ->
  Forall (fun t => closure_ok (allMerchants (view w)) (timer_closure t)) l ->
  merchants_inv (fold_left fire l w).
Proof.
  revert w. induction l as [| t l IH]; intros w Inv F; simpl; [exact Inv |].
  inversion F as [| ? ? Ht Hl]; subst.
  apply IH; rewrite fire_loadAllPerks.
  - now apply loadAllPerks_merchants.
  - exact Hl.
Qed.

Lemma elapse_merchants (ms : N) (w : World) :
  merchants_inv w -> merchants_inv (elapse ms w).
Proof.
  intros Inv. unfold elapse. apply fold_fire_merchants.
  - destruct Inv as (A & B & C & D). unfold merchants_inv. simpl.
    repeat split; try assumption. now apply Forall_filter_keep.
  - simpl. apply Forall_filter_keep. now destruct Inv as (_ & _ & C & _).
Qed.

Lemma settle_merchants (id : N) (r : Response) (w : World) :
  merchants_inv w -> merchants_inv (settle id r w).
Proof.
  intros Inv. unfold settle.
  destruct (lookup_call id (inflight w)) as [k |] eqn:L; [| exact Inv].
  apply lookup_call_In in L. destruct Inv as (A & B & C & D).
  pose proof (proj1 (Forall_forall _ _) D _ L) as K. unfold pending_ok in K.
  destruct k as [| cl]; simpl in K.
  - destruct K as [-> E0]. destruct r as [ps | f]; unfold merchants_inv; simpl.
    + split; [now exists ps |]. split; [now right |]. rewrite E0 in C, D. split.
      * revert C. apply Forall_impl. intros t [E | E]; left; exact E.
      * apply Forall_forall. intros [i k] Hi. apply filter_In in Hi.
        destruct Hi as [Hi Hne]. simpl in Hne.
        pose proof (proj1 (Forall_forall _ _) D _ Hi) as Ki.
        unfold pending_ok in *. simpl in *. destruct k as [| cl].
        -- destruct Ki as [-> _]. discriminate Hne.
        -- destruct Ki as [E | E]; left; exact E.
    + repeat split; try assumption. now apply Forall_filter_keep.
  - destruct r as [ps | f]; unfold merchants_inv; simpl;
      repeat split; try assumption; try now apply Forall_filter_keep.
Qed.

Lemma step_merchants (w : World) (e : Event) :
  merchants_inv w -> merchants_inv (step w e).
Proof.
  intros Inv. destruct e as [v | v | | | ms | id r]; simpl;
    try apply commit_merchants.
  - revert Inv. now apply merchants_inv_ext.
  - revert Inv. now apply merchants_inv_ext.
  - apply loadAllPerks_merchants; [exact Inv | now right].
  - destruct Inv as (A & B & C & D). unfold merchants_inv. simpl.
    repeat split; try assumption. now right.
  - now apply elapse_merchants.
  - now apply settle_merchants.
Qed.

Lemma merchants_inv_mount : merchants_inv mount.
Proof.
  unfold merchants_inv. simpl. split; [now exists [] |]. split; [now left |].
  split; repeat constructor.
Qed.

Lemma reachable_merchants_inv (w : World) : reachable w -> merchants_inv w.
Proof.
  apply reachable_induction; [exact merchants_inv_mount |].
  intros w' e _. apply step_merchants.
Qed.

Lemma unique_merchants_NoDup (ps : list Perk) : NoDup (unique_merchants ps).
Proof. apply set_of_NoDup. Qed.

Lemma unique_merchants_nonblank (ps : list Perk) (m : Js.str) :
  In m (unique_merchants ps) -> Js.trim m <> [].
Proof.
  unfold unique_merchants. rewrite set_of_In, merchants_of_In.
  now intros (_ & _ & _ & T).
Qed.

Lemma fold_fire_allMerchants (l : list Timer) (w : World) :
  allMerchants (view (fold_left fire l w)) = allMerchants (view w).
Proof.
  revert w. induction l as [| t l IH]; intros w; simpl; [reflexivity |].
  now rewrite IH, fire_loadAllPerks.
Qed.

End Merchants.

(** X3. On every state the page can reach, the dropdown's merchant list
    is either empty or the full list: no fetch, filtered or not, ever puts
    another list there. The full list has no repeated name and no blank
    one. *)
Theorem dropdown_is_full_or_empty :
  forall (w : World),
    reachable w ->
    (uniqueMerchants (view w) = []
     \/ uniqueMerchants (view w) = allMerchants (view w))
    /\ NoDup (allMerchants (view w))
    /\ Forall (fun m => Js.trim m <> []) (allMerchants (view w)).
Proof.
  intros w R. destruct (reachable_merchants_inv w R) as ((ps & E) & B & _).
  split; [exact B |]. rewrite E. split.
  - apply unique_merchants_NoDup.
  - apply Forall_forall. intros m. apply unique_merchants_nonblank.
Qed.

Lemma dropdown_is_full_or_empty_witness :
  reachable (run mount [Settle 0 (Resolved [perkA; perkB]); Reset])
  /\ NoDup (allMerchants (view (run mount [Settle 0 (Resolved [perkA; perkB]); Reset]))).
Proof.
  assert (R : reachable (run mount [Settle 0 (Resolved [perkA; perkB]); Reset]))
    by (now eexists).
  split; [exact R |].
  exact (proj1 (proj2 (dropdown_is_full_or_empty _ R))).
Defined.

(** X4. On every state the page can reach, the values of the dropdown's
    options, the "All Merchants" option with its empty value included, are
    pairwise different, so a selected value names one option. *)
Theorem dropdown_values_distinct :
  forall (w : World),
    reachable w ->
    NoDup (map fst (page_options (render (view w)))).
Proof.
  intros w R. destruct (reachable_merchants_inv w R) as ((ps & E) & B & _).
  simpl. rewrite map_map. simpl. rewrite map_id.
  destruct B as [-> | ->].
  - repeat constructor. intros [].
  - rewrite E. constructor; [| apply unique_merchants_NoDup].
    intros H. apply unique_merchants_nonblank in H. now apply H.
Qed.

Lemma dropdown_values_distinct_witness :
  reachable (run mount [Settle 0 (Resolved [perkA; perkB; perkA])])
  /\ NoDup (map fst (page_options (render (view
        (run mount [Settle 0 (Resolved [perkA; perkB; perkA])]))))).
Proof.
  assert (R : reachable (run mount [Settle 0 (Resolved [perkA; perkB; perkA])]))
    by (now eexists).
  split; [exact R |].
  exact (dropdown_values_distinct _ R).
Defined.

(** X5. On a state the page can reach, an event changes the full merchant
    list only if it is a successful response to call 0, the initial load;
    before that response the full list is empty. *)
Theorem full_list_written_by_initial_load_only :
  forall (w : World) (e : Event),
    reachable w ->
    allMerchants (view (step w e)) = allMerchants (view w)
    \/ exists ps,
         e = Settle 0 (Resolved ps)
         /\ allMerchants (view w) = []
         /\ allMerchants (view (step w e)) = unique_merchants ps.
Proof.
  intros w e R. destruct (reachable_merchants_inv w R) as (_ & _ & _ & D).
  destruct e as [v | v | | | ms | id r]; simpl; rewrite ?commit_view;
    try (now left).
  - left. unfold elapse. now rewrite fold_fire_allMerchants.
  - unfold settle.
    destruct (lookup_call id (inflight w)) as [k |] eqn:L; [| now left].
    apply lookup_call_In in L.
    pose proof (proj1 (Forall_forall _ _) D _ L) as K. unfold pending_ok in K.
    destruct k as [| cl], r as [ps | f]; simpl in *; try (now left).
    destruct K as [-> E0]. right. now exists ps.
Qed.

Lemma full_list_written_by_initial_load_only_witness :
  reachable mount
  /\ (allMerchants (view (step mount (Settle 0 (Resolved [perkA; perkB]))))
      = allMerchants (view mount)
      \/ exists ps,
           Settle 0 (Resolved [perkA; perkB]) = Settle 0 (Resolved ps)
           /\ allMerchants (view mount) = []
           /\ allMerchants (view (step mount (Settle 0 (Resolved [perkA; perkB]))))
              = unique_merchants ps).
Proof.
  assert (R : reachable mount) by (now exists []).
  split; [exact R |].
  exact (full_list_written_by_initial_load_only mount
           (Settle 0 (Resolved [perkA; perkB])) R).
Defined.

(* ================================================================= *)
(** ** Responses and the spinner *)

Section Responses.

Lemma settle_found (id : N) (k : Continuation) (r : Response) (w : World) :
  lookup_call id (inflight w) = Some k ->
  step w (Settle id r)
  = continue k r
      (set_inflight (filter (fun e => negb (fst e =? id)) (inflight w)) w).
Proof.
  intros L. simpl. unfold settle. rewrite L.
  apply commit_same; now destruct k, r.
Qed.

Lemma settle_missing (id : N) (r : Response) (w : World) :
  lookup_call id (inflight w) = None -> step w (Settle id r) = w.
Proof.
  intros L. simpl. unfold settle. rewrite L. now apply commit_same.
Qed.

Lemma continue_inflight (k : Continuation) (r : Response) (w : World) :
  inflight (continue k r w) = inflight w.
Proof. now destruct k, r. Qed.

Lemma continue_loading (k : Continuation) (r : Response) (w : World) :
  loading (view (continue k r w)) = false.
Proof. now destruct k, r. Qed.

Lemma lookup_call_filter (i j : N) (l : list (N * Continuation)) :
  i <> j ->
  lookup_call j (filter (fun e => negb (fst e =? i)) l) = lookup_call j l.
Proof.
  intros Hij. induction l as [| [a k] l IH]; simpl; [reflexivity |].
  destruct (a =? i) eqn:Ei; simpl.
  - apply N.eqb_eq in Ei. subst a.
    replace (i =? j) with false by (symmetry; now apply N.eqb_neq).
    exact IH.
  - destruct (a =? j); [reflexivity | exact IH].
Qed.

Lemma settle_keeps_others (i j : N) (r : Response) (w : World) :
  i <> j ->
  lookup_call j (inflight (step w (Settle i r))) = lookup_call j (inflight w).
Proof.
  intros Hij. destruct (lookup_call i (inflight w)) as [k |] eqn:L.
  - rewrite (settle_found _ _ _ _ L), continue_inflight. simpl.
    now apply lookup_call_filter.
  - now rewrite (settle_missing _ _ _ L).
Qed.

Lemma settle_resolved_perks (id : N) (k : Continuation) (ps : list Perk) (w : World) :
  lookup_call id (inflight w) = Some k ->
  perks (view (step w (Settle id (Resolved ps)))) = ps.
Proof. intros L. rewrite (settle_found _ _ _ _ L). now destruct k. Qed.

Lemma fire_spinner (w : World) (t : Timer) : spinner_inv (fire w t).
Proof.
  rewrite fire_loadAllPerks. intros _. simpl.
  destruct (inflight w); discriminate.
Qed.

Lemma fold_fire_spinner (l : list Timer) (w : World) :
  spinner_inv w -> spinner_inv (fold_left fire l w).
Proof.
  revert w. induction l as [| t l IH]; intros w H; simpl; [exact H |].
  apply IH, fire_spinner.
Qed.

Lemma step_spinner (w : World) (e : Event) :
  spinner_inv w -> spinner_inv (step w e).
Proof.
  intros Inv. destruct e as [v | v | | | ms | id r].
  - unfold spinner_inv. simpl. rewrite commit_view.
    destruct (commit_calls (view w) (update (setSearchQuery v) w)) as (_ & -> & _).
    exact Inv.
  - unfold spinner_inv. simpl. rewrite commit_view.
    destruct (commit_calls (view w) (update (setMerchantFilter v) w)) as (_ & -> & _).
    exact Inv.
  - rewrite step_submit. intros _. simpl. destruct (inflight w); discriminate.
  - unfold spinner_inv. simpl. rewrite commit_view.
    destruct (commit_calls (view w) (handleReset (view w) w)) as (_ & -> & _).
    exact Inv.
  - simpl. unfold elapse. now apply fold_fire_spinner.
  - destruct (lookup_call id (inflight w)) as [k |] eqn:L.
    + rewrite (settle_found _ _ _ _ L). intros H.
      now rewrite continue_loading in H.
    + now rewrite (settle_missing _ _ _ L).
Qed.

End Responses.

(** X6. On every state the page can reach, the spinner is shown only
    while some call is still pending: once every call has settled, the
    loading flag is off. *)
Theorem spinner_needs_pending_call :
  forall (w : World),
    reachable w ->
    page_spinner (render (view w)) = true -> inflight w <> [].
Proof.
  intros w R. revert w R.
  apply (reachable_induction spinner_inv).
  - intros _. discriminate.
  - intros w e _. apply step_spinner.
Qed.

Lemma spinner_needs_pending_call_witness :
  reachable (run mount [Submit; Settle 0 (Rejected NetworkError); Submit])
  /\ page_spinner (render (view
       (run mount [Submit; Settle 0 (Rejected NetworkError); Submit]))) = true
  /\ inflight (run mount [Submit; Settle 0 (Rejected NetworkError); Submit]) <> [].
Proof.
  assert (R : reachable (run mount [Submit; Settle 0 (Rejected NetworkError); Submit]))
    by (now eexists).
  split; [exact R |]. split; [reflexivity |].
  exact (spinner_needs_pending_call _ R eq_refl).
Defined.

(** X7. There is no guard on the order of responses: when two calls are
    pending and both succeed, the perks on screen are those of the
    response that arrived last, whichever call was made first. *)
Theorem last_response_wins :
  forall (w : World) (i j : N) (ki kj : Continuation) (a b : list Perk),
    i <> j ->
    lookup_call i (inflight w) = Some ki ->
    lookup_call j (inflight w) = Some kj ->
    perks (view (run w [Settle i (Resolved a); Settle j (Resolved b)])) = b
    /\ perks (view (run w [Settle j (Resolved b); Settle i (Resolved a)])) = a.
Proof.
  intros w i j ki kj a b Hij Li Lj. unfold run. cbn [fold_left]. split.
  - apply (settle_resolved_perks _ kj). now rewrite settle_keeps_others.
  - apply (settle_resolved_perks _ ki).
    rewrite settle_keeps_others; [exact Li | congruence].
Qed.

Lemma last_response_wins_witness :
  1 <> 2
  /\ lookup_call 1 (inflight (run mount [TypeSearch (Js.lit "a"); Submit; Submit]))
     = Some (LoadAllPerks (setSearchQuery (Js.lit "a") initial_state))
  /\ perks (view (run (run mount [TypeSearch (Js.lit "a"); Submit; Submit])
                      [Settle 2 (Resolved [perkB]); Settle 1 (Resolved [perkA])]))
     = [perkA].
Proof.
  split; [discriminate |]. split; [reflexivity |].
  refine (proj2 (last_response_wins
                   (run mount [TypeSearch (Js.lit "a"); Submit; Submit]) 1 2
                   _ _ [perkA] [perkB] _ eq_refl eq_refl)).
  discriminate.
Defined.

(** X8. A successful response to a pending call, initial or filtered,
    puts its perks on screen and stops the spinner; it does not clear the
    error text, does not touch the filter fields, and makes no call. *)
Theorem success_keeps_error_and_filters :
  forall (w : World) (id : N) (k : Continuation) (ps : list Perk),
    lookup_call id (inflight w) = Some k ->
    let w' := step w (Settle id (Resolved ps)) in
    perks (view w') = ps
    /\ loading (view w') = false
    /\ error (view w') = error (view w)
    /\ searchQuery (view w') = searchQuery (view w)
    /\ merchantFilter (view w') = merchantFilter (view w)
    /\ calls w' = calls w
    /\ timers w' = timers w
    /\ lookup_call id (inflight w') = None.
Proof.
  intros w id k ps L w'. subst w'. rewrite (settle_found _ _ _ _ L).
  rewrite continue_inflight.
  assert (N0 : lookup_call id
                 (filter (fun e => negb (fst e =? id)) (inflight w)) = None).
  { clear L. induction (inflight w) as [| [a k'] l IH]; simpl; [reflexivity |].
    destruct (a =? id) eqn:E; simpl; [exact IH | now rewrite E]. }
  destruct k; simpl; repeat split; exact N0.
Qed.

Lemma success_keeps_error_and_filters_witness :
  lookup_call 1 (inflight (run mount [Settle 0 (Rejected NetworkError); Submit;
                                      Submit; Settle 2 (Rejected NetworkError)]))
  = Some (LoadAllPerks (setLoading false (setError fallback_message initial_state)))
  /\ error (view (step (run mount [Settle 0 (Rejected NetworkError); Submit;
                                   Submit; Settle 2 (Rejected NetworkError)])
                       (Settle 1 (Resolved [perkA]))))
     = fallback_message.
Proof.
  split; [reflexivity |].
  exact (proj1 (proj2 (proj2
           (success_keeps_error_and_filters
              (run mount [Settle 0 (Rejected NetworkError); Submit;
                          Submit; Settle 2 (Rejected NetworkError)])
              1 (LoadAllPerks (setLoading false (setError fallback_message initial_state)))
              [perkA] eq_refl)))).
Defined.

(* ================================================================= *)
(** ** Calls made by events *)

Section Calls.

Lemma fold_fire_calls (l : list Timer) (w : World) :
  calls (fold_left fire l w)
  = calls w ++ map (fun t => filtered_request (timer_closure t)) l.
Proof.
  revert w. induction l as [| t l IH]; intros w; simpl.
  - now rewrite app_nil_r.
  - rewrite IH, fire_loadAllPerks. simpl. now rewrite <- app_assoc.
Qed.

Lemma elapse_calls (ms : N) (w : World) :
  calls (elapse ms w)
  = calls w ++ map (fun t => filtered_request (timer_closure t))
                   (filter (is_due (clock w + ms)) (timers w)).
Proof. unfold elapse. now rewrite fold_fire_calls. Qed.

Lemma settle_calls (id : N) (r : Response) (w : World) :
  calls (settle id r w) = calls w.
Proof.
  unfold settle. destruct (lookup_call id (inflight w)) as [k |]; [| reflexivity].
  now destruct k, r.
Qed.

Lemma reset_edits (w : World) :
  searchQuery (view w) <> [] \/ merchantFilter (view w) <> [] ->
  edits_filters w Reset = true.
Proof.
  intros H. unfold edits_filters. apply negb_true_iff.
  destruct (same_deps (view w) (view (step w Reset))) eqn:D; [| reflexivity].
  apply same_deps_true in D. simpl in D. rewrite commit_view in D.
  simpl in D. destruct D as [D1 D2]. destruct H as [H | H]; contradiction.
Qed.

Lemma step_calls (w : World) (e : Event) :
  debounce_inv w ->
  calls (step w e) = calls w
  \/ exists cl, calls (step w e) = calls w ++ [filtered_request cl].
Proof.
  intros R.
  destruct e as [v | v | | | ms | id r].
  - left. simpl. now destruct (commit_calls (view w) (update (setSearchQuery v) w)) as (-> & _).
  - left. simpl. now destruct (commit_calls (view w) (update (setMerchantFilter v) w)) as (-> & _).
  - right. exists (view w). now rewrite step_submit.
  - left. simpl. now destruct (commit_calls (view w) (handleReset (view w) w)) as (-> & _).
  - simpl. rewrite elapse_calls.
    destruct R as [E | (t & E & _)]; rewrite E; simpl.
    + left. now rewrite app_nil_r.
    + destruct (is_due (clock w + ms) t); simpl.
      * right. now exists (timer_closure t).
      * left. now rewrite app_nil_r.
  - left. simpl. destruct (commit_calls (view w) (settle id r w)) as (-> & _).
    apply settle_calls.
Qed.

End Calls.

(** X9. On a state the page can reach, one event adds at most one call to
    the log and removes none; a call it adds is the filtered request of
    some render, so it goes to [/perks/all]. *)
Theorem event_makes_at_most_one_call :
  forall (w : World) (e : Event),
    reachable w ->
    calls (step w e) = calls w
    \/ exists cl,
         calls (step w e) = calls w ++ [filtered_request cl]
         /\ url (filtered_request cl) = Js.lit "/perks/all".
Proof.
  intros w e R. apply reachable_debounce_inv in R.
  destruct (step_calls w e R) as [E | (cl & E)]; [now left |].
  right. now exists cl.
Qed.

Lemma event_makes_at_most_one_call_witness :
  reachable (run mount [TypeSearch (Js.lit "a"); TypeSearch (Js.lit "ab")])
  /\ (calls (step (run mount [TypeSearch (Js.lit "a"); TypeSearch (Js.lit "ab")])
                  (Elapse 2000))
      = calls (run mount [TypeSearch (Js.lit "a"); TypeSearch (Js.lit "ab")])
      \/ exists cl,
           calls (step (run mount [TypeSearch (Js.lit "a"); TypeSearch (Js.lit "ab")])
                       (Elapse 2000))
           = calls (run mount [TypeSearch (Js.lit "a"); TypeSearch (Js.lit "ab")])
             ++ [filtered_request cl]
           /\ url (filtered_request cl) = Js.lit "/perks/all").
Proof.
  assert (R : reachable (run mount [TypeSearch (Js.lit "a"); TypeSearch (Js.lit "ab")]))
    by (now eexists).
  split; [exact R |].
  exact (event_makes_at_most_one_call _ (Elapse 2000) R).
Defined.

(** X10. Typing the text that is already in the search field, or
    selecting the merchant that is already selected, changes nothing: the
    pending debounce timer keeps its due time and no new one is armed. *)
Theorem same_value_edit_is_ignored :
  forall (w : World),
    step w (TypeSearch (searchQuery (view w))) = w
    /\ step w (SelectMerchant (merchantFilter (view w))) = w.
Proof.
  intros [[p a u q m l e] c t nt cl ca inf nc]. simpl.
  split; now apply commit_same.
Qed.

(** X11. On a state the page can reach, Reset Filters with a filter set
    makes no call for the next 500 ms and then exactly one, with an empty
    query; with both filters already empty it arms no timer and changes
    neither the call log nor what the passing of time will call. *)
Theorem reset_refetches_unfiltered_after_delay :
  forall (w : World),
    reachable w ->
    (searchQuery (view w) <> [] \/ merchantFilter (view w) <> [] ->
     (forall d, d < 500 -> calls (run w [Reset; Elapse d]) = calls w)
     /\ forall d, 500 <= d ->
          exists r, calls (run w [Reset; Elapse d]) = calls w ++ [r]
                    /\ query r = [])
    /\ (searchQuery (view w) = [] -> merchantFilter (view w) = [] ->
        timers (step w Reset) = timers w
        /\ forall d, calls (run w [Reset; Elapse d]) = calls (run w [Elapse d])).
Proof.
  intros w R. split.
  - intros H. apply reachable_debounce_inv in R.
    destruct (edit_arms w Reset R (reset_edits w H)) as (A & C & _).
    unfold run. cbn [fold_left]. split.
    + intros d Hd. change (step (step w Reset) (Elapse d)) with (elapse d (step w Reset)).
      rewrite (armed_elapse_early _ d A Hd). simpl calls. exact C.
    + intros d Hd. change (step (step w Reset) (Elapse d)) with (elapse d (step w Reset)).
      destruct (armed_elapse_late _ d A Hd) as (E & _).
      eexists. rewrite E, C. split; [reflexivity |].
      simpl. now rewrite commit_view.
  - intros E1 E2.
    assert (S : step w Reset = handleReset (view w) w).
    { simpl. apply commit_same; simpl; congruence. }
    split; [now rewrite S |].
    intros d. unfold run. cbn [fold_left]. rewrite S. simpl.
    now rewrite !elapse_calls.
Qed.

Lemma reset_refetches_unfiltered_after_delay_witness :
  reachable (run mount [TypeSearch (Js.lit "tea"); Elapse 500])
  /\ (forall d, d < 500 ->
        calls (run (run mount [TypeSearch (Js.lit "tea"); Elapse 500]) [Reset; Elapse d])
        = calls (run mount [TypeSearch (Js.lit "tea"); Elapse 500])).
Proof.
  assert (R : reachable (run mount [TypeSearch (Js.lit "tea"); Elapse 500]))
    by (now eexists).
  split; [exact R |].
  refine (proj1 (proj1 (reset_refetches_unfiltered_after_delay _ R) _)).
  left. discriminate.
Defined.

(** X12. Search Now does not cancel the pending debounce timer: on a
    state the page can reach, a filter change followed at once by a
    submit makes the call for the new values at the submit and the same
    call a second time when the timer fires 500 ms after the change. *)
Theorem submit_then_debounce_fetches_twice :
  forall (w : World) (e : Event),
    reachable w ->
    edits_filters w e = true ->
    forall d, 500 <= d ->
      calls (run w [e; Submit; Elapse d])
      = calls w ++ [filtered_request (view (step w e));
                    filtered_request (view (step w e))].
Proof.
  intros w e R He d Hd. apply reachable_debounce_inv in R.
  destruct (edit_arms w e R He) as ((id & Ht & _) & C & _).
  unfold run. cbn [fold_left].
  change (step (step (step w e) Submit) (Elapse d))
    with (elapse d (step (step w e) Submit)).
  rewrite elapse_calls, step_submit. simpl. rewrite Ht, C. simpl.
  unfold is_due. simpl.
  replace (clock (step w e) + 500 <=? clock (step w e) + d) with true
    by (symmetry; apply N.leb_le; lia).
  simpl. now rewrite <- app_assoc.
Qed.

Lemma submit_then_debounce_fetches_twice_witness :
  reachable mount
  /\ edits_filters mount (SelectMerchant (Js.lit "X")) = true
  /\ 500 <= 600
  /\ List.length (calls (run mount [SelectMerchant (Js.lit "X"); Submit; Elapse 600]))
     = 3%nat.
Proof.
  assert (R : reachable mount) by (now exists []).
  assert (L : 500 <= 600) by discriminate.
  split; [exact R |]. split; [reflexivity |]. split; [exact L |].
  rewrite (submit_then_debounce_fetches_twice mount (SelectMerchant (Js.lit "X"))
             R eq_refl 600 L).
  reflexivity.
Defined.

(** X13. The "No perks found" message is shown exactly when the spinner
    is off and the grid has no card. A successful response with no perks
    to a pending call leaves the page in that state, with the count
    reading "Showing 0 perks". *)
Theorem empty_result_shows_empty_state :
  forall (w : World) (id : N) (k : Continuation),
    lookup_call id (inflight w) = Some k ->
    let page := render (view (step w (Settle id (Resolved [])))) in
    page_empty page = true
    /\ page_cards page = []
    /\ page_spinner page = false
    /\ page_count page = Js.lit "Showing 0 perks"
    /\ forall s, page_empty (render s) = true
                 <-> page_spinner (render s) = false /\ page_cards (render s) = [].
Proof.
  intros w id k L page. subst page. rewrite (settle_found _ _ _ _ L).
  split; [now destruct k |]. split; [now destruct k |].
  split; [now destruct k |]. split; [now destruct k |].
  intros s. simpl. rewrite andb_true_iff, negb_true_iff.
  destruct (perks s) as [| p ps]; simpl.
  - tauto.
  - split; [intros [_ H]; discriminate H | intros [_ H]; discriminate H].
Qed.

Lemma empty_result_shows_empty_state_witness :
  lookup_call 0 (inflight mount) = Some InitialLoad
  /\ page_empty (render (view (step mount (Settle 0 (Resolved []))))) = true.
Proof.
  split; [reflexivity |].
  exact (proj1 (empty_result_shows_empty_state mount 0 InitialLoad eq_refl)).
Defined.

(* ================================================================= *)
(** ** Pending calls and the call log *)

Section Pending.

Lemma commit_next_call (prev : State) (w : World) :
  next_call (commit prev w) = next_call w.
Proof.
  unfold commit, debounce_effect, run_cleanup, clearTimeout.
  destruct (same_deps prev (view w)); [reflexivity |].
  destruct (cleanup w); reflexivity.
Qed.

Lemma commit_inflight (prev : State) (w : World) :
  inflight (commit prev w) = inflight w.
Proof. apply commit_calls. Qed.

Lemma ids_inv_ext (w w' : World) :
  inflight w' = inflight w -> next_call w' = next_call w ->
  ids_inv w -> ids_inv w'.
Proof. unfold ids_inv. intros -> ->. exact (fun H => H). Qed.

Lemma commit_ids (prev : State) (w : World) : ids_inv w -> ids_inv (commit prev w).
Proof.
  apply ids_inv_ext; [apply commit_calls | apply commit_next_call].
Qed.

Lemma loadAllPerks_ids (cl : State) (w : World) :
  ids_inv w -> ids_inv (loadAllPerks cl w).
Proof.
  unfold ids_inv. simpl. intros H. apply Forall_app. split.
  - revert H. apply Forall_impl. intros e He. lia.
  - constructor; [simpl; lia | constructor].
Qed.

Lemma fold_fire_ids (l : list Timer) (w : World) :
  ids_inv w -> ids_inv (fold_left fire l w).
Proof.
  revert w. induction l as [| t l IH]; intros w H; simpl; [exact H |].
  apply IH. rewrite fire_loadAllPerks. now apply loadAllPerks_ids.
Qed.

Lemma step_ids (w : World) (e : Event) : ids_inv w -> ids_inv (step w e).
Proof.
  intros Inv. destruct e as [v | v | | | ms | id r]; simpl;
    try (apply commit_ids).
  - exact Inv.
  - exact Inv.
  - now apply loadAllPerks_ids.
  - exact Inv.
  - unfold elapse. now apply fold_fire_ids.
  - unfold settle. destruct (lookup_call id (inflight w)) as [k |]; [| exact Inv].
    match goal with |- ids_inv (continue k r ?w0) =>
      apply (ids_inv_ext w0); [apply continue_inflight | now destruct k, r |]
    end.
    unfold ids_inv. simpl. now apply Forall_filter_keep.
Qed.

Lemma reachable_ids (w : World) : reachable w -> ids_inv w.
Proof.
  apply reachable_induction.
  - repeat constructor.
  - intros w' e _. apply step_ids.
Qed.

Lemma lookup_call_fresh (n : N) (k : Continuation) (l : list (N * Continuation)) :
  Forall (fun e => fst e < n) l ->
  lookup_call n (l ++ [(n, k)]) = Some k.
Proof.
  induction 1 as [| [i k'] l Hi _ IH]; simpl.
  - now rewrite N.eqb_refl.
  - simpl in Hi. replace (i =? n) with false; [exact IH |].
    symmetry. apply N.eqb_neq. lia.
Qed.

Lemma fold_fire_inflight (l : list Timer) (w : World) :
  exists added, inflight (fold_left fire l w) = inflight w ++ added.
Proof.
  revert w. induction l as [| t l IH]; intros w; simpl.
  - exists []. now rewrite app_nil_r.
  - destruct (IH (fire w t)) as (added & E). rewrite E, fire_loadAllPerks.
    simpl. rewrite <- app_assoc. now eexists.
Qed.

Lemma step_log (w : World) (e : Event) :
  debounce_inv w -> log_inv w -> log_inv (step w e).
Proof.
  intros Inv (rest & E & F). unfold log_inv.
  destruct (step_calls w e Inv) as [Ec | (cl & Ec)]; rewrite Ec.
  - now exists rest.
  - exists (rest ++ [filtered_request cl]). rewrite E. split; [reflexivity |].
    apply Forall_app. split; [exact F |].
    constructor; [now exists cl | constructor].
Qed.

End Pending.

(** X14. No event other than a response removes a pending call: typing,
    selecting, submitting, resetting and the firing of the timer leave
    every call in flight, they only ever add one. *)
Theorem pending_calls_are_never_cancelled :
  forall (w : World) (e : Event),
    (forall id r, e <> Settle id r) ->
    exists added, inflight (step w e) = inflight w ++ added.
Proof.
  intros w e H. destruct e as [v | v | | | ms | id r]; simpl.
  - exists []. now rewrite app_nil_r, commit_inflight.
  - exists []. now rewrite app_nil_r, commit_inflight.
  - eexists. rewrite commit_inflight. reflexivity.
  - exists []. now rewrite app_nil_r, commit_inflight.
  - unfold elapse.
    match goal with |- context [fold_left fire ?l ?w0] =>
      destruct (fold_fire_inflight l w0) as (added & E)
    end.
    exists added. exact E.
  - now destruct (H id r).
Qed.

Lemma pending_calls_are_never_cancelled_witness :
  (forall id r, Reset <> Settle id r)
  /\ exists added,
       inflight (step (step mount (TypeSearch (Js.lit "a"))) Reset)
       = inflight (step mount (TypeSearch (Js.lit "a"))) ++ added.
Proof.
  assert (H : forall id r, Reset <> Settle id r) by discriminate.
  split; [exact H |].
  exact (pending_calls_are_never_cancelled _ Reset H).
Defined.

(** X15. On every state the page can reach, the call log starts with the
    one call that has no [params] object, the initial load, and every
    later call is the filtered request of some render: the parameterless
    call is never made again. *)
Theorem parameterless_call_only_at_mount :
  forall (w : World),
    reachable w ->
    exists rest,
      calls w = mkRequest (Js.lit "/perks/all") None :: rest
      /\ Forall (fun r => config r <> None /\ url r = Js.lit "/perks/all") rest.
Proof.
  intros w R.
  assert (L : log_inv w).
  { revert w R. apply reachable_induction.
    - exists []. now split.
    - intros w e R. apply step_log. now apply reachable_debounce_inv. }
  destruct L as (rest & E & F). exists rest. split; [exact E |].
  revert F. apply Forall_impl. intros r (cl & ->). now split.
Qed.

Lemma parameterless_call_only_at_mount_witness :
  reachable (run mount [Elapse 500; Submit])
  /\ exists rest,
       calls (run mount [Elapse 500; Submit])
       = mkRequest (Js.lit "/perks/all") None :: rest
       /\ Forall (fun r => config r <> None /\ url r = Js.lit "/perks/all") rest.
Proof.
  assert (R : reachable (run mount [Elapse 500; Submit])) by (now eexists).
  split; [exact R |].
  exact (parameterless_call_only_at_mount _ R).
Defined.

(** X16. On a state the page can reach, when Search Now is followed
    directly by the successful response to its own call, the page shows
    the returned perks and the dropdown holds the full merchant list of
    the render that was submitted. *)
Theorem submit_response_restores_dropdown :
  forall (w : World) (ps : list Perk),
    reachable w ->
    let w' := run w [Submit; Settle (next_call w) (Resolved ps)] in
    perks (view w') = ps
    /\ uniqueMerchants (view w') = allMerchants (view w)
    /\ allMerchants (view w') = allMerchants (view w)
    /\ loading (view w') = false
    /\ error (view w') = [].
Proof.
  intros w ps R w'. subst w'. apply reachable_ids in R.
  unfold run. cbn [fold_left]. rewrite step_submit.
  assert (L : lookup_call (next_call w) (inflight (loadAllPerks (view w) w))
              = Some (LoadAllPerks (view w))).
  { simpl. now apply lookup_call_fresh. }
  rewrite (settle_found _ _ _ _ L). repeat split.
Qed.

Lemma submit_response_restores_dropdown_witness :
  reachable (run mount [Settle 0 (Resolved [perkA; perkB]); Elapse 500;
                        Settle 1 (Resolved [perkA; perkB])])
  /\ uniqueMerchants (view (run mount [Settle 0 (Resolved [perkA; perkB]); Elapse 500;
                                       Settle 1 (Resolved [perkA; perkB])])) = []
  /\ uniqueMerchants
       (view (run (run mount [Settle 0 (Resolved [perkA; perkB]); Elapse 500;
                              Settle 1 (Resolved [perkA; perkB])])
                  [Submit; Settle 2 (Resolved [perkB])]))
     = [Js.lit "X"; Js.lit "Y"].
Proof.
  assert (R : reachable (run mount [Settle 0 (Resolved [perkA; perkB]); Elapse 500;
                                    Settle 1 (Resolved [perkA; perkB])]))
    by (now eexists).
  split; [exact R |]. split; [reflexivity |].
  exact (proj1 (proj2 (submit_response_restores_dropdown _ [perkB] R))).
Defined.

(* ================================================================= *)
(** ** The count *)

Lemma render_count (s : State) :
  page_count (render s)
  = Js.lit "Showing " ++ Js.of_N (N.of_nat (List.length (perks s)))
    ++ Js.lit " perk"
    ++ (if negb (N.of_nat (List.length (perks s)) =? 1) then Js.lit "s" else []).
Proof. reflexivity. Qed.

(** X17. The count above the grid is in the singular, "Showing 1 perk",
    exactly when one perk is on screen; for every other number of perks,
    zero included, it ends in "perks". *)
Theorem count_is_singular_for_one_perk :
  forall (s : State),
    (page_count (render s) = Js.lit "Showing 1 perk"
     <-> List.length (perks s) = 1%nat)
    /\ (List.length (perks s) <> 1%nat ->
        page_count (render s)
        = Js.lit "Showing " ++ Js.of_N (N.of_nat (List.length (perks s)))
          ++ Js.lit " perks").
Proof.
  intros s. rewrite render_count.
  destruct (N.of_nat (List.length (perks s)) =? 1) eqn:E; cbn [negb].
  - apply N.eqb_eq in E. assert (L : List.length (perks s) = 1%nat) by lia.
    rewrite L. split; [split; reflexivity | intros H; now elim H].
  - apply N.eqb_neq in E. assert (L : List.length (perks s) <> 1%nat) by lia.
    split; [| reflexivity]. split; [| intros H; now elim L].
    intros H. exfalso.
    change (Js.lit "s") with [115] in H.
    rewrite !app_assoc in H.
    apply (f_equal (fun l => last l 0)) in H. rewrite last_last in H.
    discriminate H.
Qed.

Lemma count_is_singular_for_one_perk_witness :
  List.length (perks (setPerks [] initial_state)) <> 1%nat
  /\ page_count (render (setPerks [] initial_state)) = Js.lit "Showing 0 perks".
Proof.
  assert (H : List.length (perks (setPerks [] initial_state)) <> 1%nat)
    by discriminate.
  split; [exact H |].
  exact (proj2 (count_is_singular_for_one_perk (setPerks [] initial_state)) H).
Defined.

